(** * Scoring and filtering pipeline of the community engagement engine

    A shallow embedding of [community_engine/models.py],
    [community_engine/database.py] and [community_engine/scorer.py], and
    the properties of the keyword matcher, the post scorer, the post
    filters and the scoring engine.

    Conventions of the embedding.
    - Python [int] is [Z]; [//] is [Z.div] (both round towards minus
      infinity for a positive divisor).
    - A naive [datetime] is the number of microseconds since
      [datetime.min] (0001-01-01T00:00:00); a [timedelta] is a number of
      microseconds.  Arithmetic that leaves the representable range raises
      [OverflowError], as in CPython.  [total_seconds()] results are only
      compared with thresholds that floating point represents exactly near
      the threshold, so the comparisons are carried out on the integers.
    - [datetime.now()] is the field [now] of the [World] in which one
      operation runs: one call of a method observes one clock reading.
    - A [str] is a [string]; what the Python library decides about it
      (its characters, [str.lower], the class [\w] of [re]) is a
      parameter, the class [Regex.Text], so that the properties hold for
      Unicode text as for ASCII text.  The examples run on the instance
      [ascii_text].
    - A Python exception is a value [Raise e] of the [result] type.
    - The SQLite file is in one state during one operation: the pipeline
      is its only writer, and a fault of the file affects every query of
      the operation. *)

From Stdlib Require Import ZArith String Ascii List Bool Lia Sorted.
From stdpp Require Import base option list gmap strings sorting.

Local Open Scope Z_scope.

(** ** Exceptions *)

Inductive exn : Type :=
  | SqliteError     (* any exception derived from sqlite3.Error *)
  | OverflowError   (* datetime or timedelta out of range *)
  | OtherError.     (* an exception of any other class *)

Global Instance exn_eq_dec : EqDecision exn.
Proof. solve_decision. Defined.

Inductive result (A : Type) : Type :=
  | Ok (a : A)
  | Raise (e : exn).
Arguments Ok {A} a.
Arguments Raise {A} e.

Definition rbind {A B} (r : result A) (k : A → result B) : result B :=
  match r with
  | Ok a => k a
  | Raise e => Raise e
  end.

Notation "'let*' x ':=' r 'in' k" := (rbind r (λ x, k))
  (at level 10, x name, r at level 100, k at level 200, only parsing).
Notation "'let*' ' p ':=' r 'in' k" := (rbind r (λ x, let 'p := x in k))
  (at level 10, p pattern, r at level 100, k at level 200, only parsing).

(** ** models.py *)

Module Models.

Inductive Platform : Type := REDDIT | LUMBERJOCKS | SAWMILLCREEK | FACEBOOK.

Definition value (p : Platform) : string :=
  match p with
  | REDDIT => "reddit"
  | LUMBERJOCKS => "lumberjocks"
  | SAWMILLCREEK => "sawmillcreek"
  | FACEBOOK => "facebook"
  end.

Record Post : Type := mkPost {
  platform : Platform;
  post_id : string;
  title : string;
  content : string;
  author : string;
  url : string;
  timestamp : Z;
  score : Z;
  keyword_matches : list string;
  has_external_links : bool
}.

Definition SECOND : Z := 1000000.
Definition MINUTE : Z := 60 * SECOND.
Definition HOUR : Z := 3600 * SECOND.
Definition DAY : Z := 86400 * SECOND.

(** [datetime.max] is 9999-12-31T23:59:59.999999, that is 3652059 days
    after [datetime.min], less one microsecond. *)
Definition datetime_max : Z := 3652059 * DAY - 1.

(** [timedelta(hours=h)]: the normalised number of days must lie within
    +-999999999. *)
Definition timedelta_hours (h : Z) : result Z :=
  let us := h * HOUR in
  if bool_decide (-999999999 ≤ us `div` DAY ≤ 999999999) then Ok us
  else Raise OverflowError.

(** [t - d] for a datetime [t] and a timedelta [d]. *)
Definition datetime_sub (t d : Z) : result Z :=
  let r := t - d in
  if bool_decide (0 ≤ r ≤ datetime_max) then Ok r else Raise OverflowError.

(** [int((now - self.timestamp).total_seconds() / 60)]: [int] truncates
    towards zero.  The code divides in floating point, so for ages of
    centuries its value can differ by one from this exact quotient; the
    sign of the age and the comparison with 60 in [is_recent] are the
    same for both. *)
Definition age_minutes (now : Z) (p : Post) : Z :=
  (now - timestamp p) `quot` MINUTE.

Definition is_recent (now : Z) (p : Post) : bool :=
  age_minutes now p <? 60.

Record ScoringResult : Type := mkScoringResult {
  post : Post;
  keyword_score : Z;
  time_bonus : Z;
  link_penalty : Z;
  final_score : Z;
  matched_keywords : list string
}.

End Models.

(** ** config.py: the scoring section of the configuration *)

Module Config.

Record ScoringConfig : Type := mkScoringConfig {
  keyword_match : Z;
  recent_post_bonus : Z;
  external_link_penalty : Z;
  max_posts_per_run : Z
}.

Definition default : ScoringConfig :=
  {| keyword_match := 5; recent_post_bonus := 2;
     external_link_penalty := -1; max_posts_per_run := 20 |}.

End Config.

(** ** Text: [str.lower] and the pattern [r'\b' + re.escape(keyword) + r'\b'] *)

Module Regex.

(** What the program takes from Python's [str] and [re]: a [str] is a
    sequence of characters (code points), which [chars] lists; [lower] is
    [str.lower]; [is_word_char] is the class [\w] of a [str] pattern
    (the alphanumeric characters of Unicode and the underscore).  The
    three are parameters of the development, fixed by the Python library
    and not by this program; a value of type [string] stands for a [str],
    with string equality for [==] and the byte order of its UTF-8 form for
    the BINARY collation of SQLite. *)
Class Text : Type := {
  char : Type;
  char_eq_dec :: EqDecision char;
  chars : string → list char;
  lower : string → string;
  is_word_char : char → bool
}.

Section Pattern.
Context `{Unicode : !Text}.

Local Open Scope nat_scope.

Definition word_at (s : list char) (i : nat) : bool :=
  match s !! i with
  | Some c => is_word_char c
  | None => false
  end.

Definition word_before (s : list char) (i : nat) : bool :=
  match i with
  | O => false
  | S j => word_at s j
  end.

(** [\b] matches the empty string at position [i] when exactly one of
    the characters on either side of [i] is a word character; the
    outside of the string counts as a non-word character. *)
Definition at_boundary (s : list char) (i : nat) : bool :=
  xorb (word_before s i) (word_at s i).

(** The escaped keyword matches itself, character by character. *)
Definition literal_at (kw s : list char) (i : nat) : bool :=
  bool_decide (take (length kw) (drop i s) = kw).

Definition match_at (kw s : list char) (i : nat) : bool :=
  at_boundary s i && literal_at kw s i && at_boundary s (i + length kw).


(** [re.search(pattern, text)] is truthy when the pattern matches at
    some position. *)
Definition search (keyword text : string) : bool :=
  existsb (match_at (chars keyword) (chars text)) (seq 0 (S (length (chars text)))).

End Pattern.

End Regex.

#[global] Existing Instance Regex.char_eq_dec.


(** ** A stable sort

    [ORDER BY] and [list.sort] are modelled by one stable insertion sort:
    an element is placed before the first element of the sorted tail that
    it may precede, so elements that compare equal keep their order. *)

Section StableSort.
Context {A : Type} (le : A → A → bool).

Fixpoint insert_sorted (x : A) (l : list A) : list A :=
  match l with
  | [] => [x]
  | y :: l' => if le x y then x :: y :: l' else y :: insert_sorted x l'
  end.

Definition stable_sort (l : list A) : list A := foldr insert_sorted [] l.
End StableSort.

(** ** database.py *)

Module Database.

(** A row [(keyword, category, score_value)] of the [keywords] table. *)
Definition KeywordRow : Type := string * string * Z.

Definition keyword (r : KeywordRow) : string := r.1.1.
Definition category (r : KeywordRow) : string := r.1.2.
Definition score_value (r : KeywordRow) : Z := r.2.

(** The SQLite file behind a [DatabaseManager]: [fault] is the exception
    that connecting to or querying the file raises, if any; [keywords]
    holds the rows of the [keywords] table and [posts] the
    [(platform, post_id)] pairs of the [posts] table. *)
Record DatabaseManager : Type := mkDatabaseManager {
  fault : option exn;
  keywords : list KeywordRow;
  posts : gset (string * string)
}.

(** SQLite stores an [INTEGER] in 64 bits; binding a larger Python [int]
    raises [OverflowError]. *)
Definition fits_sqlite_integer (v : Z) : bool :=
  (- 2 ^ 63 <=? v) && (v <=? 2 ^ 63 - 1).

(** [with sqlite3.connect(...) as conn: ... cursor.execute(...)] *)
Definition execute {A} (db : DatabaseManager) (query : DatabaseManager → A) : result A :=
  match fault db with
  | Some e => Raise e
  | None => Ok (query db)
  end.

(** [try: ... except sqlite3.Error as e: log; return fallback] *)
Definition except_sqlite {A} (body : result A) (fallback : A) : result A :=
  match body with
  | Raise SqliteError => Ok fallback
  | r => r
  end.

(** [ORDER BY score_value DESC, keyword] (BINARY collation on text). *)
Definition by_score_keyword (r1 r2 : KeywordRow) : bool :=
  (score_value r2 <? score_value r1)
  || ((score_value r1 =? score_value r2) && String.leb (keyword r1) (keyword r2)).

(** [ORDER BY category, score_value DESC, keyword] *)
Definition by_category_score_keyword (r1 r2 : KeywordRow) : bool :=
  String.ltb (category r1) (category r2)
  || (String.eqb (category r1) (category r2) && by_score_keyword r1 r2).

Definition select_keywords (cat : option string) (db : DatabaseManager) : list KeywordRow :=
  match cat with
  | Some (String a c) =>
      stable_sort by_score_keyword
        (List.filter (λ r, String.eqb (category r) (String a c)) (keywords db))
  | _ => stable_sort by_category_score_keyword (keywords db)
  end.

(** [get_keywords(category=None)]: [if category:] is false for [None]
    and for the empty string. *)
Definition get_keywords (db : DatabaseManager) (cat : option string) : result (list KeywordRow) :=
  except_sqlite (execute db (select_keywords cat)) [].

Definition is_post_processed (db : DatabaseManager) (platform post_id : string) : result bool :=
  except_sqlite (execute db (λ d, bool_decide ((platform, post_id) ∈ posts d))) false.

End Database.

(** The surroundings of one operation: the clock reading and the database. *)
Record World : Type := mkWorld {
  now : Z;
  db : Database.DatabaseManager
}.

(** ** scorer.py *)

Module Scorer.
Import Models Database.

(** *** KeywordMatcher *)

Record KeywordMatcher : Type := mkKeywordMatcher {
  _keyword_cache : option (list KeywordRow);
  _cache_timestamp : option Z
}.

Definition new_matcher : KeywordMatcher :=
  {| _keyword_cache := None; _cache_timestamp := None |}.

(** seconds *)
Definition _cache_ttl : Z := 300.

Definition _get_keywords (w : World) (m : KeywordMatcher)
    : result (list KeywordRow * KeywordMatcher) :=
  let refresh :=
    let* rows := get_keywords (db w) None in
    Ok (rows, {| _keyword_cache := Some rows; _cache_timestamp := Some (now w) |}) in
  match _keyword_cache m, _cache_timestamp m with
  | Some cached, Some t =>
      if _cache_ttl * SECOND <? now w - t then refresh else Ok (cached, m)
  | _, _ => refresh
  end.

Section Matching.
Context `{Unicode : !Regex.Text}.

Fixpoint match_loop (text_lower : string) (keywords : list KeywordRow) : list KeywordRow :=
  match keywords with
  | [] => []
  | (keyword, category, score_value) :: rest =>
      if Regex.search keyword text_lower
      then (keyword, category, score_value) :: match_loop text_lower rest
      else match_loop text_lower rest
  end.

Definition find_matches (w : World) (m : KeywordMatcher) (text : string)
    : result (list KeywordRow * KeywordMatcher) :=
  if String.eqb text "" then Ok ([], m)
  else
    let text_lower := Regex.lower text in
    let* '(keywords, m') := _get_keywords w m in
    Ok (match_loop text_lower keywords, m').

End Matching.

(** The loop of [calculate_keyword_score]: [keyword_counts] is the
    dictionary of occurrence counts, [total_score] the running total. *)
Fixpoint score_loop (keyword_counts : gmap string Z) (total_score : Z)
    (matches : list KeywordRow) : Z :=
  match matches with
  | [] => total_score
  | (keyword, _, score_value) :: rest =>
      let n := default 0 (keyword_counts !! keyword) + 1 in
      let keyword_counts' := <[keyword := n]> keyword_counts in
      let total_score' :=
        if n =? 1 then total_score + score_value
        else if n =? 2 then total_score + score_value `div` 2
        else total_score in
      score_loop keyword_counts' total_score' rest
  end.

Definition calculate_keyword_score (matches : list KeywordRow) : Z :=
  match matches with
  | [] => 0
  | _ => score_loop ∅ 0 matches
  end.

(** *** PostScorer *)

Section PostScorer.
Context `{Unicode : !Regex.Text}.
(** [list(set(all_matches))]: the order in which Python iterates over
    a set is not specified; [list_set] is that order.  A property that
    depends on it assumes that [list_set l] is a permutation of the
    duplicate-free list [remove_dups l]. *)
Variable list_set : list KeywordRow → list KeywordRow.
Variable config : Config.ScoringConfig.

Definition score_post (w : World) (m : KeywordMatcher) (p : Post)
    : result (ScoringResult * KeywordMatcher) :=
  let* '(title_matches, m1) := find_matches w m (title p) in
  let* '(content_matches, m2) := find_matches w m1 (content p) in
  let all_matches := title_matches ++ content_matches in
  let unique_matches := list_set all_matches in
  let keyword_score := calculate_keyword_score unique_matches in
  let time_bonus :=
    if is_recent (now w) p then Config.recent_post_bonus config else 0 in
  let link_penalty :=
    if has_external_links p then Config.external_link_penalty config else 0 in
  let final_score := keyword_score + time_bonus + link_penalty in
  let p' :=
    {| platform := platform p; post_id := post_id p; title := title p;
       content := content p; author := author p; url := url p;
       timestamp := timestamp p; score := final_score;
       keyword_matches := keyword <$> unique_matches;
       has_external_links := has_external_links p |} in
  Ok ({| post := p'; keyword_score := keyword_score; time_bonus := time_bonus;
         link_penalty := link_penalty; final_score := final_score;
         matched_keywords := keyword <$> unique_matches |}, m2).

(** The loop of [score_posts]: the post at position [i] is scored at
    the clock reading [clock i]; a post whose scoring raises is logged
    and skipped.  (A call of [score_post] that raises leaves the
    matcher as it was, see [score_post_raise_keeps_matcher].) *)
Fixpoint score_each (d : DatabaseManager) (clock : nat → Z) (m : KeywordMatcher)
    (posts : list Post) : list ScoringResult * KeywordMatcher :=
  match posts with
  | [] => ([], m)
  | p :: rest =>
      match score_post {| now := clock O; db := d |} m p with
      | Ok (r, m') =>
          let '(results, m'') := score_each d (clock ∘ S) m' rest in
          (r :: results, m'')
      | Raise _ => score_each d (clock ∘ S) m rest
      end
  end.

(** [results.sort(key=lambda x: x.final_score, reverse=True)] *)
Definition by_final_score_desc (x y : ScoringResult) : bool :=
  final_score y <=? final_score x.

Definition score_posts (d : DatabaseManager) (clock : nat → Z) (m : KeywordMatcher)
    (posts : list Post) : list ScoringResult * KeywordMatcher :=
  let '(results, m') := score_each d clock m posts in
  (stable_sort by_final_score_desc results, m').

(** *** PostFilter *)

Definition post_key (p : Post) : string * string := (value (platform p), post_id p).

Fixpoint dedup_loop (seen : gset (string * string)) (posts : list Post) : list Post :=
  match posts with
  | [] => []
  | p :: rest =>
      let key := post_key p in
      if bool_decide (key ∉ seen)
      then p :: dedup_loop ({[key]} ∪ seen) rest
      else dedup_loop seen rest
  end.

Definition filter_duplicates (posts : list Post) : list Post := dedup_loop ∅ posts.

Fixpoint filter_processed (d : DatabaseManager) (posts : list Post) : result (list Post) :=
  match posts with
  | [] => Ok []
  | p :: rest =>
      let* processed := is_post_processed d (value (platform p)) (post_id p) in
      let* filtered := filter_processed d rest in
      Ok (if negb processed then p :: filtered else filtered)
  end.

Definition filter_by_age (w : World) (posts : list Post) (max_age_hours : Z)
    : result (list Post) :=
  let* delta := timedelta_hours max_age_hours in
  let* cutoff_time := datetime_sub (now w) delta in
  Ok (List.filter (λ p, cutoff_time <=? timestamp p) posts).

Definition filter_by_score (scoring_results : list ScoringResult) (min_score : Z)
    : list ScoringResult :=
  List.filter (λ r, min_score <=? final_score r) scoring_results.

(** [l[:n]]: a negative [n] counts from the end of the list. *)
Definition slice_to {A} (l : list A) (n : Z) : list A :=
  if n <? 0 then take (Z.to_nat (Z.of_nat (length l) + n)) l
  else take (Z.to_nat n) l.

Definition filter_top_posts (scoring_results : list ScoringResult) : list ScoringResult :=
  let max_posts := Config.max_posts_per_run config in
  if Z.of_nat (length scoring_results) <=? max_posts then scoring_results
  else slice_to scoring_results max_posts.

(** *** ScoringEngine *)

(** [_save_posts_to_db]: every exception is caught and logged.  On a
    database that answers, [save_post] stores the post of a result unless
    its final score does not fit an [INTEGER], in which case binding it
    raises [OverflowError] and the post is not stored. *)
Definition _save_posts_to_db (d : DatabaseManager) (scoring_results : list ScoringResult)
    : DatabaseManager :=
  match fault d with
  | Some _ => d
  | None =>
      let saved :=
        List.filter (λ r, fits_sqlite_integer (final_score r)) scoring_results in
      {| fault := None; keywords := keywords d;
         posts := list_to_set (post_key ∘ post <$> saved) ∪ posts d |}
  end.

(** [process_posts]: the filter stage runs in the world [w], the
    post at position [i] of the filtered list is scored at the clock
    reading [clock i].  The value is the returned list together with
    the matcher and the database after the run. *)
Definition process_posts (w : World) (clock : nat → Z) (m : KeywordMatcher)
    (posts : list Post)
    : result (list ScoringResult * KeywordMatcher * DatabaseManager) :=
  let filtered_posts := filter_duplicates posts in
  let* filtered_posts := filter_processed (db w) filtered_posts in
  let* filtered_posts := filter_by_age w filtered_posts 24 in
  match filtered_posts with
  | [] => Ok ([], m, db w)
  | _ =>
      let '(scoring_results, m') := score_posts (db w) clock m filtered_posts in
      let scoring_results := filter_by_score scoring_results 1 in
      let scoring_results := filter_top_posts scoring_results in
      Ok (scoring_results, m', _save_posts_to_db (db w) scoring_results)
  end.

End PostScorer.

End Scorer.

Import Models Database Scorer.

(** ** models.py, continued: previews, enumeration values, dictionaries *)

Module PostViews.

(** [Post.preview_content], given by the characters of the string it
    returns: [len] counts characters and the slice [[:247]] keeps the
    first 247 of them. *)
Definition preview_content `{Unicode : !Regex.Text} (p : Post) : list Regex.char :=
  let content := Regex.chars (content p) in
  if (length content <=? 250)%nat then content
  else take 247 content ++ Regex.chars "...".

(** [Platform(s)]: the member whose value is [s]; a [ValueError] for any
    other string. *)
Definition Platform_of_value (s : string) : result Platform :=
  if String.eqb s "reddit" then Ok REDDIT
  else if String.eqb s "lumberjocks" then Ok LUMBERJOCKS
  else if String.eqb s "sawmillcreek" then Ok SAWMILLCREEK
  else if String.eqb s "facebook" then Ok FACEBOOK
  else Raise OtherError.

(** A dictionary with the keys that [Post.to_dict] writes, each one absent
    or holding a value of the type that [to_dict] gives it. *)
Record PostDict : Type := mkPostDict {
  d_platform : option string;
  d_post_id : option string;
  d_title : option string;
  d_content : option string;
  d_author : option string;
  d_url : option string;
  d_timestamp : option string;
  d_score : option Z;
  d_keyword_matches : option (list string);
  d_has_external_links : option bool;
  d_age_minutes : option Z;
  d_is_recent : option bool
}.

(** [data[key]]: a [KeyError] when the key is absent. *)
Definition getitem {A} (v : option A) : result A :=
  match v with
  | Some a => Ok a
  | None => Raise OtherError
  end.

Section Isoformat.
(** [datetime.isoformat] and [datetime.fromisoformat] of the Python
    library; the latter raises a [ValueError] on what it cannot read. *)
Variable isoformat : Z → string.
Variable fromisoformat : string → option Z.

Definition to_dict (now : Z) (p : Post) : PostDict :=
  {| d_platform := Some (value (platform p));
     d_post_id := Some (post_id p);
     d_title := Some (title p);
     d_content := Some (content p);
     d_author := Some (author p);
     d_url := Some (url p);
     d_timestamp := Some (isoformat (timestamp p));
     d_score := Some (score p);
     d_keyword_matches := Some (keyword_matches p);
     d_has_external_links := Some (has_external_links p);
     d_age_minutes := Some (age_minutes now p);
     d_is_recent := Some (is_recent now p) |}.

Definition from_dict (data : PostDict) : result Post :=
  let* platform_value := getitem (d_platform data) in
  let* platform := Platform_of_value platform_value in
  let* post_id := getitem (d_post_id data) in
  let* title := getitem (d_title data) in
  let* content := getitem (d_content data) in
  let* author := getitem (d_author data) in
  let* url := getitem (d_url data) in
  let* timestamp_text := getitem (d_timestamp data) in
  let* timestamp := getitem (fromisoformat timestamp_text) in
  Ok {| platform := platform; post_id := post_id; title := title;
        content := content; author := author; url := url;
        timestamp := timestamp;
        score := default 0 (d_score data);
        keyword_matches := default [] (d_keyword_matches data);
        has_external_links := default false (d_has_external_links data) |}.

End Isoformat.

End PostViews.

(** ** database.py, continued: writing keywords *)

Module KeywordStore.

(** [INSERT OR REPLACE INTO keywords ...]: the column [keyword] is
    [UNIQUE], so the rows with the same keyword are deleted and the new
    row is appended. *)
Definition insert_or_replace (row : KeywordRow) (rows : list KeywordRow) : list KeywordRow :=
  List.filter (λ r, negb (String.eqb (keyword r) (keyword row))) rows ++ [row].

Definition with_keywords (d : DatabaseManager) (rows : list KeywordRow) : DatabaseManager :=
  {| fault := fault d; keywords := rows; posts := posts d |}.

Section Keywords.
Context `{Unicode : !Regex.Text}.

(** [add_keyword]: the value is the returned flag and the database. *)
Definition add_keyword (d : DatabaseManager) (kw cat : string) (score : Z)
    : result (bool * DatabaseManager) :=
  except_sqlite
    (let* connected := execute d (λ d, d) in
     if fits_sqlite_integer score
     then Ok (true, with_keywords connected
                      (insert_or_replace (Regex.lower kw, cat, score) (keywords connected)))
     else Raise OverflowError)
    (false, d).

(** [remove_keyword]: [cursor.rowcount > 0] when a row was deleted. *)
Definition remove_keyword (d : DatabaseManager) (kw : string)
    : result (bool * DatabaseManager) :=
  except_sqlite
    (execute d (λ d,
       let k := Regex.lower kw in
       (existsb (λ r, String.eqb (keyword r) k) (keywords d),
        with_keywords d
          (List.filter (λ r, negb (String.eqb (keyword r) k)) (keywords d)))))
    (false, d).

(** [category_scores.get(category, 5)] *)
Definition category_score (cat : string) : Z :=
  if String.eqb cat "high_value" then 8
  else if String.eqb cat "medium_value" then 5
  else if String.eqb cat "low_value" then 3
  else if String.eqb cat "general" then 5
  else 5.

(** The inner loop of [bulk_import_keywords] over the keywords of one
    category; the state is the counter and the table. *)
Fixpoint import_keyword_list (cat : string) (score : Z) (keyword_list : list string)
    (imported_count : Z) (rows : list KeywordRow) : Z * list KeywordRow :=
  match keyword_list with
  | [] => (imported_count, rows)
  | kw :: rest =>
      import_keyword_list cat score rest (imported_count + 1)
        (insert_or_replace (Regex.lower kw, cat, score) rows)
  end.

(** The outer loop over the items of the dictionary, in the order of the
    dictionary. *)
Fixpoint import_categories (keywords_dict : list (string * list string))
    (imported_count : Z) (rows : list KeywordRow) : Z * list KeywordRow :=
  match keywords_dict with
  | [] => (imported_count, rows)
  | (cat, keyword_list) :: rest =>
      let '(imported_count', rows') :=
        import_keyword_list cat (category_score cat) keyword_list imported_count rows in
      import_categories rest imported_count' rows'
  end.

(** [bulk_import_keywords]: an [sqlite3.Error] leaves the counter at 0. *)
Definition bulk_import_keywords (d : DatabaseManager)
    (keywords_dict : list (string * list string)) : result (Z * DatabaseManager) :=
  except_sqlite
    (execute d (λ d,
       let '(imported_count, rows) := import_categories keywords_dict 0 (keywords d) in
       (imported_count, with_keywords d rows)))
    (0, d).

(** *** KeywordManager *)

Definition default_keywords : list (string * list string) :=
  [("high_value",
    ["table saw"; "router"; "jointer"; "planer"; "bandsaw";
     "drill press"; "dust collection"; "workshop setup";
     "miter saw"; "circular saw"; "hand plane"; "chisel set"]);
   ("medium_value",
    ["wood finish"; "sanding"; "glue up"; "mortise"; "tenon";
     "dovetail"; "pocket hole"; "wood stain"; "polyurethane";
     "clamps"; "measuring tools"; "safety equipment"]);
   ("low_value",
    ["wood species"; "lumber"; "hardwood"; "softwood"; "plywood";
     "project ideas"; "beginner tips"; "wood grain"; "cutting board"])]%string.

Definition initialize_default_keywords (d : DatabaseManager) : result (Z * DatabaseManager) :=
  bulk_import_keywords d default_keywords.

(** The loop of [get_keyword_dict]: the dictionary maps a category to
    the list of its keywords. *)
Fixpoint keyword_dict_loop (rows : list KeywordRow) (result : gmap string (list string))
    : gmap string (list string) :=
  match rows with
  | [] => result
  | (keyword, category, _) :: rest =>
      let result' :=
        match result !! category with
        | None => <[category := []]> result
        | Some _ => result
        end in
      keyword_dict_loop rest
        (<[category := default [] (result' !! category) ++ [keyword]]> result')
  end.

Definition get_keyword_dict (d : DatabaseManager) : result (gmap string (list string)) :=
  let* rows := get_keywords d None in
  Ok (keyword_dict_loop rows ∅).

(** [keyword in text_lower]: the keyword is a substring of the text. *)
Definition contains (text keyword : string) : bool :=
  existsb (Regex.literal_at (Regex.chars keyword) (Regex.chars text))
    (seq 0 (S (length (Regex.chars text)))).

Fixpoint search_loop (text_lower : string) (all_keywords : list KeywordRow) : list KeywordRow :=
  match all_keywords with
  | [] => []
  | (keyword, category, score_value) :: rest =>
      if contains text_lower keyword
      then (keyword, category, score_value) :: search_loop text_lower rest
      else search_loop text_lower rest
  end.

Definition search_keywords (d : DatabaseManager) (text : string) : result (list KeywordRow) :=
  let text_lower := Regex.lower text in
  let* all_keywords := get_keywords d None in
  Ok (search_loop text_lower all_keywords).

End Keywords.

End KeywordStore.

Import PostViews KeywordStore.

(** * Vocabulary of the properties *)

Section Vocabulary.
Context `{Unicode : !Regex.Text}.

(** ** Keyword scores *)

(** Number of entries of a match list that carry the keyword text [t]. *)
Definition occurrences_of (t : string) (matches : list KeywordRow) : Z :=
  Z.of_nat (length (filter (λ r, keyword r = t) matches)).

(** What a keyword of weight [w] that occurs [n] times adds to the score. *)
Definition contribution (n w : Z) : Z :=
  if n <=? 0 then 0 else if n =? 1 then w else w + w `div` 2.

Definition distinct_keywords (matches : list KeywordRow) : list string :=
  remove_dups (keyword <$> matches).

Definition sum_over (f : string → Z) (ts : list string) : Z :=
  foldr (λ t acc, f t + acc) 0 ts.

(** The weights of the entries that carry the keyword text [t], in the
    order of the list. *)
Definition weights_of (t : string) (matches : list KeywordRow) : list Z :=
  score_value <$> filter (λ r, keyword r = t) matches.

(** What the entries of one keyword add: the first its weight, the
    second half its weight, rounded down, the others nothing. *)
Definition keyword_contribution (weights : list Z) : Z :=
  match weights with
  | [] => 0
  | [w] => w
  | w1 :: w2 :: _ => w1 + w2 `div` 2
  end.

(** What entries with the weights [weights] add for a keyword that has
    been seen [seen] times. *)
Fixpoint gains (seen : Z) (weights : list Z) : Z :=
  match weights with
  | [] => 0
  | w :: rest =>
      (if seen + 1 =? 1 then w else if seen + 1 =? 2 then w `div` 2 else 0)
      + gains (seen + 1) rest
  end.

(** Entries with the same keyword text have the same weight. *)
Definition consistent_weights (matches : list KeywordRow) : Prop :=
  ∀ r1 r2, r1 ∈ matches → r2 ∈ matches →
    keyword r1 = keyword r2 → score_value r1 = score_value r2.

(** The weight of the first entry with keyword text [t]. *)
Fixpoint weight_of (matches : list KeywordRow) (t : string) : Z :=
  match matches with
  | [] => 0
  | r :: rest => if bool_decide (keyword r = t) then score_value r else weight_of rest t
  end.

Definition count_in (counts : gmap string Z) (t : string) : Z :=
  default 0 (counts !! t).

(** ** The filter stage of [process_posts] *)

Definition filter_stage (w : World) (posts : list Post) : result (list Post) :=
  let* unprocessed := filter_processed (db w) (filter_duplicates posts) in
  filter_by_age w unprocessed 24.

Definition desc_final_score (x y : ScoringResult) : Prop :=
  final_score y ≤ final_score x.

Definition has_final_score (s : Z) (r : ScoringResult) : bool :=
  final_score r =? s.

(** ** Databases and failures *)

(** The database either answers or fails with an [sqlite3.Error], which
    the [DatabaseManager] methods catch. *)
Definition sqlite_faults_only (d : DatabaseManager) : Prop :=
  fault d = None ∨ fault d = Some SqliteError.

(** The cache is empty or older than the time to live. *)
Definition needs_refresh (w : World) (m : KeywordMatcher) : Prop :=
  match _keyword_cache m, _cache_timestamp m with
  | Some _, Some t => _cache_ttl * SECOND < now w - t
  | _, _ => True
  end.

Definition emptied_cache (w : World) : KeywordMatcher :=
  {| _keyword_cache := Some []; _cache_timestamp := Some (now w) |}.

(** ** Whole-word occurrences *)

(** The keyword [kw] stands in [s] at position [i]. *)
Definition occurs_at (kw s : list Regex.char) (i : nat) : Prop :=
  take (length kw) (drop i s) = kw.

(** Position [i] of [s] lies inside a token: the characters on both
    sides of it are word characters. *)
Definition inside_token (s : list Regex.char) (i : nat) : Prop :=
  Regex.word_before s i = true ∧ Regex.word_at s i = true.

(** The occurrence at [i] is cut out of a larger token. *)
Definition substring_of_larger_token (kw s : list Regex.char) (i : nat) : Prop :=
  occurs_at kw s i ∧ (inside_token s i ∨ inside_token s (i + length kw)).

(** The occurrence at [i] starts and ends where no token continues. *)
Definition whole_word_at (kw s : list Regex.char) (i : nat) : Prop :=
  occurs_at kw s i ∧ ¬ inside_token s i ∧ ¬ inside_token s (i + length kw).

(** The keyword starts and ends with a word character. *)
Definition word_ended (kw : list Regex.char) : Prop :=
  ∃ first final,
    kw !! 0%nat = Some first ∧ last kw = Some final
    ∧ Regex.is_word_char first = true ∧ Regex.is_word_char final = true.

(** ** Orders on keyword rows *)

(** Weight descending, ties broken by keyword text ascending. *)
Definition keyword_order (r1 r2 : KeywordRow) : Prop :=
  score_value r2 < score_value r1
  ∨ (score_value r1 = score_value r2 ∧ String.le (keyword r1) (keyword r2)).

(** Category ascending, then [keyword_order] within a category. *)
Definition category_keyword_order (r1 r2 : KeywordRow) : Prop :=
  (category r1 ≠ category r2 ∧ String.le (category r1) (category r2))
  ∨ (category r1 = category r2 ∧ keyword_order r1 r2).

(** ** Posts *)

(** The posts that are the first of their key, in their original order. *)
Definition first_of_each_key (posts : list Post) : list Post :=
  concat (imap (λ i p, if bool_decide (post_key p ∈ post_key <$> take i posts)
                       then [] else [p]) posts).

Definition total_weight (matches : list KeywordRow) : Z :=
  foldr (λ r acc, score_value r + acc) 0 matches.

(** ** The keyword table *)

(** The keyword texts of the table are pairwise different and in lower
    case. *)
Definition keyword_table_ok (d : DatabaseManager) : Prop :=
  NoDup (keyword <$> keywords d)
  ∧ Forall (λ r, Regex.lower (keyword r) = keyword r) (keywords d).

(** The rows that [bulk_import_keywords] writes, in the order in which it
    writes them. *)
Definition import_rows (keywords_dict : list (string * list string)) : list KeywordRow :=
  mjoin ((λ item, (λ kw, (Regex.lower kw, item.1, category_score item.1)) <$> item.2)
         <$> keywords_dict).

(** [r] is the last row of [rows] with its keyword text. *)
Definition last_with_its_keyword (r : KeywordRow) (rows : list KeywordRow) : Prop :=
  ∃ before after, rows = before ++ r :: after ∧ keyword r ∉ keyword <$> after.

(** ** Scored posts *)

(** The post [p] with its score and its matched keywords overwritten,
    every other field as it was. *)
Definition rescored (p : Post) (final_score : Z) (matched : list string) : Post :=
  {| platform := platform p; post_id := post_id p; title := title p;
     content := content p; author := author p; url := url p;
     timestamp := timestamp p; score := final_score;
     keyword_matches := matched;
     has_external_links := has_external_links p |}.

(** [r] is a scoring of the post [p]: it carries [p], updated with the
    final score and the matched keywords of [r]. *)
Definition scoring_of (p : Post) (r : ScoringResult) : Prop :=
  post r = rescored p (final_score r) (matched_keywords r).

(** The matcher holds no keyword: its cache is absent or empty. *)
Definition no_cached_keywords (m : KeywordMatcher) : Prop :=
  _keyword_cache m = None ∨ _keyword_cache m = Some [].

(** A scoring without any keyword. *)
Definition no_keyword_scoring (r : ScoringResult) : Prop :=
  keyword_score r = 0 ∧ matched_keywords r = []
  ∧ final_score r = time_bonus r + link_penalty r.

End Vocabulary.

(** ** Sample data *)

(** Text of ASCII characters, on which [str.lower] maps [A-Z] to [a-z]
    and [\w] is [[0-9A-Za-z_]]: the instance of the examples. *)
Module AsciiText.

Local Open Scope nat_scope.

Definition lower_char (c : ascii) : ascii :=
  let n := nat_of_ascii c in
  if (65 <=? n) && (n <=? 90) then ascii_of_nat (n + 32) else c.

Definition lower (s : string) : string :=
  string_of_list_ascii (lower_char <$> list_ascii_of_string s).

Definition is_word_char (c : ascii) : bool :=
  let n := nat_of_ascii c in
  ((48 <=? n) && (n <=? 57)) || ((65 <=? n) && (n <=? 90))
  || ((97 <=? n) && (n <=? 122)) || (n =? 95).

End AsciiText.

#[global] Instance ascii_text : Regex.Text :=
  {| Regex.char := ascii;
     Regex.chars := list_ascii_of_string;
     Regex.lower := AsciiText.lower;
     Regex.is_word_char := AsciiText.is_word_char |}.

Definition sample_keywords : list KeywordRow :=
  [("safety", "general", 5); ("table saw", "tools", 8); ("router", "tools", 10);
   ("lumber", "low_value", 3)]%string.

Definition sample_db : DatabaseManager :=
  {| fault := None; keywords := sample_keywords; posts := ∅ |}.

Definition sample_now : Z := 739000 * DAY.

Definition sample_world : World := {| now := sample_now; db := sample_db |}.

Definition sample_post (id title content : string) (timestamp : Z) (links : bool) : Post :=
  {| platform := REDDIT; post_id := id; title := title; content := content;
     author := "woodworker"; url := "https://reddit.com/r/woodworking";
     timestamp := timestamp; score := 0; keyword_matches := [];
     has_external_links := links |}.

Definition sample_posts : list Post :=
  [sample_post "p1" "Table saw safety tips" "..." (sample_now - 5 * MINUTE) false;
   sample_post "p2" "Router question" "Is lumber safety gear needed?" (sample_now - 5 * HOUR) true;
   sample_post "p2" "Router question" "Is lumber safety gear needed?" (sample_now - 5 * HOUR) true;
   sample_post "p3" "Old table saw" "safety" (sample_now - 25 * HOUR) false;
   sample_post "p4" "Lumber prices" "" (sample_now - 2 * HOUR) false;
   sample_post "p5" "Router and table saw" "router" (sample_now - 3 * HOUR) false].

(** One iteration order of a set: the one of [gset]. *)
Definition sample_list_set (l : list KeywordRow) : list KeywordRow :=
  elements (list_to_set l : gset KeywordRow).

Definition config_with_cap (n : Z) : Config.ScoringConfig :=
  {| Config.keyword_match := 5; Config.recent_post_bonus := 2;
     Config.external_link_penalty := -1; Config.max_posts_per_run := n |}.

(** * Properties *)

(** ** Diminishing returns of [calculate_keyword_score] *)

Section DiminishingReturns.
Context `{Unicode : !Regex.Text}.

Lemma sum_over_ext f g ts :
  (∀ t, t ∈ ts → f t = g t) → sum_over f ts = sum_over g ts.
Proof.
  induction ts as [|t ts IH]; intros Hfg; simpl; [done|].
  rewrite (Hfg t) by left. rewrite IH; [done|].
  intros t' Ht'. apply Hfg. by right.
Qed.

Lemma sum_over_adjust f g ts k delta :
  NoDup ts → k ∈ ts →
  (∀ t, t ≠ k → f t = g t) → f k = g k + delta →
  sum_over f ts = sum_over g ts + delta.
Proof.
  intros Hnd. induction Hnd as [|t ts Hnotin Hnd IH]; intros Hin Hne Hk.
  - by apply elem_of_nil in Hin.
  - simpl. destruct (decide (t = k)) as [->|Htk].
    + rewrite Hk. rewrite (sum_over_ext f g ts); [lia|].
      intros t' Ht'. apply Hne. intros ->. contradiction.
    + rewrite (Hne t Htk). apply elem_of_cons in Hin as [->|Hin]; [done|].
      rewrite IH by done. lia.
Qed.

Lemma occurrences_of_cons t r matches :
  occurrences_of t (r :: matches)
  = (if bool_decide (keyword r = t) then 1 else 0) + occurrences_of t matches.
Proof.
  unfold occurrences_of. rewrite filter_cons.
  case_bool_decide; destruct (decide _); try done; simpl; lia.
Qed.

Lemma occurrences_of_nonneg t matches : 0 ≤ occurrences_of t matches.
Proof. unfold occurrences_of. lia. Qed.

Lemma occurrences_of_perm t l1 l2 :
  l1 ≡ₚ l2 → occurrences_of t l1 = occurrences_of t l2.
Proof. intros H. unfold occurrences_of. by rewrite H. Qed.

Lemma gain_step n v total :
  (if n =? 1 then total + v else if n =? 2 then total + v `div` 2 else total)
  = total + (contribution n v - contribution (n - 1) v).
Proof.
  unfold contribution.
  destruct (Z.eqb_spec n 1); destruct (Z.eqb_spec n 2);
    destruct (Z.leb_spec n 0); destruct (Z.leb_spec (n - 1) 0);
    destruct (Z.eqb_spec (n - 1) 1); lia.
Qed.

(** The loop adds, for every keyword, the growth of its contribution. *)
Lemma score_loop_sum wt ts matches : ∀ counts total,
  NoDup ts →
  (∀ r, r ∈ matches → keyword r ∈ ts) →
  (∀ r, r ∈ matches → score_value r = wt (keyword r)) →
  score_loop counts total matches
  = total + sum_over (λ t, contribution (count_in counts t + occurrences_of t matches) (wt t)
                           - contribution (count_in counts t) (wt t)) ts.
Proof.
  induction matches as [|[[kw cat] v] rest IH]; intros counts total Hnd Hts Hwt.
  - simpl. rewrite (sum_over_ext _ (λ _, 0)).
    + clear. induction ts; simpl; lia.
    + intros t _. unfold occurrences_of. simpl. rewrite Z.add_0_r. lia.
  - cbn [score_loop]. rewrite IH; [|done|..]; cycle 1.
    { intros r Hr. apply Hts. by right. }
    { intros r Hr. apply Hwt. by right. }
    assert (Hv : v = wt kw) by (apply (Hwt (kw, cat, v)); left).
    assert (Hkw : kw ∈ ts) by (apply (Hts (kw, cat, v)); left).
    set (n := default 0 (counts !! kw) + 1).
    set (gain := contribution n (wt kw) - contribution (n - 1) (wt kw)).
    rewrite (sum_over_adjust
               (λ t, contribution (count_in counts t + occurrences_of t (((kw, cat, v) : KeywordRow) :: rest)) (wt t)
                     - contribution (count_in counts t) (wt t))
               (λ t, contribution (count_in (<[kw:=n]> counts) t + occurrences_of t rest) (wt t)
                     - contribution (count_in (<[kw:=n]> counts) t) (wt t))
               ts kw gain Hnd Hkw).
    + subst gain. rewrite <- Hv, gain_step. ring.
    + intros t Hne. rewrite occurrences_of_cons. unfold count_in.
      rewrite lookup_insert_ne by done.
      rewrite bool_decide_eq_false_2 by (cbn; congruence). f_equal.
    + rewrite occurrences_of_cons. unfold count_in.
      rewrite lookup_insert_eq. rewrite bool_decide_eq_true_2 by done.
      cbn [default]. subst gain n.
      replace (default 0 (counts !! kw) + 1 - 1) with (default 0 (counts !! kw)) by lia.
      replace (default 0 (counts !! kw) + (1 + occurrences_of kw rest))
        with (default 0 (counts !! kw) + 1 + occurrences_of kw rest) by lia.
      unfold id. lia.
Qed.

Lemma calculate_keyword_score_sum wt ts matches :
  NoDup ts →
  (∀ r, r ∈ matches → keyword r ∈ ts) →
  (∀ r, r ∈ matches → score_value r = wt (keyword r)) →
  calculate_keyword_score matches
  = sum_over (λ t, contribution (occurrences_of t matches) (wt t)) ts.
Proof.
  intros Hnd Hts Hwt.
  transitivity (score_loop ∅ 0 matches).
  { by destruct matches. }
  rewrite (score_loop_sum wt ts) by done.
  rewrite Z.add_0_l. apply sum_over_ext. intros t _.
  unfold count_in. rewrite lookup_empty. cbn [default].
  rewrite Z.add_0_l. unfold contribution at 2. simpl. lia.
Qed.

Lemma weight_of_consistent matches :
  consistent_weights matches →
  ∀ r, r ∈ matches → score_value r = weight_of matches (keyword r).
Proof.
  induction matches as [|r0 rest IH]; intros Hc r Hr.
  - by apply elem_of_nil in Hr.
  - simpl. case_bool_decide as Heq.
    + apply Hc; [done|left|done].
    + apply elem_of_cons in Hr as [->|Hr]; [done|].
      apply IH; [|done].
      intros r1 r2 H1 H2. apply Hc; by right.
Qed.

Lemma weights_of_cons t r matches :
  weights_of t (r :: matches)
  = if bool_decide (keyword r = t) then score_value r :: weights_of t matches
    else weights_of t matches.
Proof.
  unfold weights_of. rewrite filter_cons.
  by case_bool_decide; destruct (decide _).
Qed.

(** The loop adds, for every keyword, the gains of its entries. *)
Lemma score_loop_gains ts matches : ∀ counts total,
  NoDup ts →
  (∀ r, r ∈ matches → keyword r ∈ ts) →
  score_loop counts total matches
  = total + sum_over (λ t, gains (count_in counts t) (weights_of t matches)) ts.
Proof.
  induction matches as [|[[kw cat] v] rest IH]; intros counts total Hnd Hts.
  - simpl. clear. induction ts; simpl; lia.
  - cbn [score_loop]. rewrite IH; [|done|]; cycle 1.
    { intros r Hr. apply Hts. by right. }
    assert (Hkw : kw ∈ ts) by (apply (Hts (kw, cat, v)); left).
    set (n := default 0 (counts !! kw) + 1).
    set (gain := if n =? 1 then v else if n =? 2 then v `div` 2 else 0).
    rewrite (sum_over_adjust
               (λ t, gains (count_in counts t)
                       (weights_of t (((kw, cat, v) : KeywordRow) :: rest)))
               (λ t, gains (count_in (<[kw:=n]> counts) t) (weights_of t rest))
               ts kw gain Hnd Hkw).
    + subst gain. destruct (n =? 1); [ring|]. destruct (n =? 2); ring.
    + intros t Hne. rewrite weights_of_cons. unfold count_in.
      rewrite lookup_insert_ne by done.
      by rewrite bool_decide_eq_false_2 by (cbn; congruence).
    + rewrite weights_of_cons. unfold count_in.
      rewrite lookup_insert_eq. rewrite bool_decide_eq_true_2 by done.
      change (default 0 (Some n)) with n. cbn [gains].
      change (score_value (kw, cat, v)) with v. subst gain n. apply Z.add_comm.
Qed.

Lemma gains_saturated seen weights : 2 ≤ seen → gains seen weights = 0.
Proof.
  revert seen. induction weights as [|w rest IH]; intros seen Hseen; [done|].
  cbn [gains]. rewrite IH by lia.
  destruct (Z.eqb_spec (seen + 1) 1); [lia|].
  destruct (Z.eqb_spec (seen + 1) 2); lia.
Qed.

Lemma gains_keyword_contribution weights :
  gains 0 weights = keyword_contribution weights.
Proof.
  destruct weights as [|w1 [|w2 rest]]; cbn [gains keyword_contribution]; [done|..].
  - change (0 + 1 =? 1) with true. cbn iota. lia.
  - change (0 + 1 =? 1) with true. change (0 + 1 + 1 =? 1) with false.
    change (0 + 1 + 1 =? 2) with true. cbn iota.
    rewrite gains_saturated by lia. lia.
Qed.

Lemma calculate_keyword_score_contributions matches :
  calculate_keyword_score matches
  = sum_over (λ t, keyword_contribution (weights_of t matches))
             (distinct_keywords matches).
Proof.
  transitivity (score_loop ∅ 0 matches); [by destruct matches|].
  rewrite (score_loop_gains (distinct_keywords matches)).
  - rewrite Z.add_0_l. apply sum_over_ext. intros t _.
    unfold count_in. rewrite lookup_empty. apply gains_keyword_contribution.
  - apply NoDup_remove_dups.
  - intros r Hr. unfold distinct_keywords.
    apply elem_of_remove_dups, list_elem_of_fmap. by exists r.
Qed.

Lemma distinct_keywords_covers matches r :
  r ∈ matches → keyword r ∈ distinct_keywords matches.
Proof.
  intros Hr. unfold distinct_keywords.
  apply elem_of_remove_dups, list_elem_of_fmap. by exists r.
Qed.

Lemma three_occurrences kw cat w :
  calculate_keyword_score [(kw, cat, w); (kw, cat, w); (kw, cat, w)] = w + w `div` 2.
Proof.
  unfold calculate_keyword_score. cbn [score_loop].
  rewrite lookup_empty. cbn [default].
  rewrite lookup_insert_eq. cbn [default].
  rewrite lookup_insert_eq. cbn [default].
  reflexivity.
Qed.

(** C3 (as amended).  For every match list, [calculate_keyword_score]
    is the sum, over the distinct keyword texts of the list, of what the
    entries of that keyword add: the first its weight, the second half
    its weight rounded down, the third and later ones nothing.  So when
    the entries with keyword text [t] all carry the weight [wt t], a
    keyword that occurs [n] times contributes [w] for [n = 1] and
    [w + floor(w/2)] for [n = 2] and for every [n >= 3].  Three
    occurrences of one keyword score [w + floor(w/2)], which is [3w] for
    the weight 0 and for no other weight. *)
Theorem calculate_keyword_score_diminishing_returns (matches : list KeywordRow) :
  calculate_keyword_score matches
  = sum_over (λ t, keyword_contribution (weights_of t matches))
             (distinct_keywords matches)
  ∧ (∀ wt : string → Z,
       Forall (λ r, score_value r = wt (keyword r)) matches →
       calculate_keyword_score matches
       = sum_over (λ t, contribution (occurrences_of t matches) (wt t))
                  (distinct_keywords matches))
  ∧ (∀ w, contribution 1 w = w
          ∧ contribution 2 w = w + w `div` 2
          ∧ (∀ n, 3 ≤ n → contribution n w = w + w `div` 2))
  ∧ (∀ kw cat w,
       calculate_keyword_score [(kw, cat, w); (kw, cat, w); (kw, cat, w)] = w + w `div` 2
       ∧ (calculate_keyword_score [(kw, cat, w); (kw, cat, w); (kw, cat, w)] = 3 * w
          ↔ w = 0)).
Proof.
  split; [apply calculate_keyword_score_contributions|]. split; [|split].
  - intros wt Hwt. rewrite Forall_forall in Hwt.
    apply calculate_keyword_score_sum; [apply NoDup_remove_dups| |done].
    intros r Hr. by apply distinct_keywords_covers.
  - intros w. repeat split; try reflexivity.
    intros n Hn. unfold contribution.
    destruct (n <=? 0) eqn:E1; [lia|]. destruct (n =? 1) eqn:E2; [lia|done].
  - intros kw cat w. rewrite three_occurrences. split; [done|].
    pose proof (Z.div_mod w 2). pose proof (Z.mod_pos_bound w 2).
    split; [lia|]. intros ->. reflexivity.
Qed.

End DiminishingReturns.

Lemma calculate_keyword_score_diminishing_returns_witness :
  calculate_keyword_score
    [("router", "tools", 8); ("safety", "general", 5); ("router", "tools", 8);
     ("router", "tools", 8)]%string
  = 17.
Proof.
  destruct (calculate_keyword_score_diminishing_returns
    [("router", "tools", 8); ("safety", "general", 5); ("router", "tools", 8);
     ("router", "tools", 8)]%string) as (_ & H & _).
  rewrite (H (λ t, if String.eqb t "router" then 8 else 5)).
  - vm_compute. reflexivity.
  - repeat constructor.
Defined.

(** C3, the claim as stated fails: three occurrences of a keyword of
    weight 0, a weight that [add_keyword] stores, score 0, which is [3w]. *)
Lemma calculate_keyword_score_zero_weight_counterexample :
  calculate_keyword_score
    [("glue", "general", 0); ("glue", "general", 0); ("glue", "general", 0)]%string
  = 3 * 0.
Proof. reflexivity. Qed.

Section PermutedMatches.
Context `{Unicode : !Regex.Text}.

(** C6.  On a match list whose entries with the same keyword text carry
    the same weight, [calculate_keyword_score] gives the same total for
    every permutation of the list. *)
Theorem calculate_keyword_score_permutation (matches matches' : list KeywordRow) :
  consistent_weights matches →
  matches ≡ₚ matches' →
  calculate_keyword_score matches = calculate_keyword_score matches'.
Proof.
  intros Hc Hperm.
  pose proof (weight_of_consistent matches Hc) as Hwt.
  rewrite (calculate_keyword_score_sum (weight_of matches) (distinct_keywords matches) matches);
    [|apply NoDup_remove_dups|apply distinct_keywords_covers|done].
  rewrite (calculate_keyword_score_sum (weight_of matches) (distinct_keywords matches) matches');
    [|apply NoDup_remove_dups| |].
  - apply sum_over_ext. intros t _. by rewrite (occurrences_of_perm t _ _ Hperm).
  - intros r Hr. apply distinct_keywords_covers. by rewrite Hperm.
  - intros r Hr. apply Hwt. by rewrite Hperm.
Qed.

End PermutedMatches.

Lemma calculate_keyword_score_permutation_witness :
  calculate_keyword_score
    [("router", "tools", 8); ("safety", "general", 5); ("router", "tools", 8)]%string
  = calculate_keyword_score
    [("safety", "general", 5); ("router", "tools", 8); ("router", "tools", 8)]%string.
Proof.
  apply calculate_keyword_score_permutation.
  - intros r1 r2 H1 H2.
    repeat (apply elem_of_cons in H1 as [->|H1]); try (by apply elem_of_nil in H1);
    repeat (apply elem_of_cons in H2 as [->|H2]); try (by apply elem_of_nil in H2);
    vm_compute; congruence.
  - apply perm_swap.
Defined.

(** Without the condition on the weights the total depends on the order. *)
Example calculate_keyword_score_order_matters :
  calculate_keyword_score [("a", "c", 4); ("a", "c", 10)]%string = 9
  ∧ calculate_keyword_score [("a", "c", 10); ("a", "c", 4)]%string = 12.
Proof. split; reflexivity. Qed.

(** ** The stable sort *)

Section SortingAndEngine.
Context `{Unicode : !Regex.Text}.

Section StableSortFacts.
Context {A : Type} (le : A → A → bool).

Lemma insert_sorted_perm x l : insert_sorted le x l ≡ₚ x :: l.
Proof.
  induction l as [|y l IH]; simpl; [done|].
  destruct (le x y); [done|]. rewrite IH. apply perm_swap.
Qed.

Lemma stable_sort_perm l : stable_sort le l ≡ₚ l.
Proof.
  induction l as [|x l IH]; simpl; [done|].
  rewrite insert_sorted_perm. by rewrite IH.
Qed.

(** Elements of one class [P], all of which may precede each other,
    keep their relative order. *)
Lemma insert_sorted_filter (P : A → bool) x l :
  (∀ y, P x = true → P y = true → le x y = true) →
  List.filter P (insert_sorted le x l) = List.filter P (x :: l).
Proof.
  intros Hclass. induction l as [|y l IH]; [done|].
  cbn [insert_sorted]. destruct (le x y) eqn:Hle; [done|].
  cbn [List.filter] in *. rewrite IH.
  destruct (P x) eqn:Px; [|done].
  destruct (P y) eqn:Py; [|done].
  rewrite Hclass in Hle; done.
Qed.

Lemma stable_sort_filter (P : A → bool) l :
  (∀ x y, P x = true → P y = true → le x y = true) →
  List.filter P (stable_sort le l) = List.filter P l.
Proof.
  intros Hclass. induction l as [|x l IH]; [done|].
  cbn [stable_sort foldr]. rewrite insert_sorted_filter by auto.
  cbn [List.filter]. fold (stable_sort le l). by rewrite IH.
Qed.

Hypothesis le_total : ∀ x y, le x y = false → le y x = true.

Lemma insert_sorted_Sorted x l :
  Sorted (λ a b, le a b = true) l → Sorted (λ a b, le a b = true) (insert_sorted le x l).
Proof.
  induction 1 as [|y l Hs IH Hhd]; simpl; [by repeat constructor|].
  destruct (le x y) eqn:Hle.
  - repeat constructor; done.
  - constructor; [done|].
    destruct l as [|z l]; simpl.
    + constructor. by apply le_total.
    + destruct (le x z); constructor; [by apply le_total|].
      by inversion Hhd.
Qed.

Lemma stable_sort_Sorted l : Sorted (λ a b, le a b = true) (stable_sort le l).
Proof.
  induction l as [|x l IH]; simpl; [constructor|].
  by apply insert_sorted_Sorted.
Qed.

End StableSortFacts.

(** ** The scoring engine *)

Lemma Sorted_weaken {A} (R S : relation A) l :
  (∀ x y, R x y → S x y) → Sorted R l → Sorted S l.
Proof.
  intros HRS. induction 1 as [|x l Hs IH Hhd]; constructor; [done|].
  destruct Hhd; constructor; auto.
Qed.

Global Instance desc_final_score_trans : Transitive desc_final_score.
Proof. intros x y z. unfold desc_final_score. lia. Qed.

Lemma stable_sort_by_final_score_sorted l :
  StronglySorted desc_final_score (stable_sort by_final_score_desc l).
Proof.
  apply Sorted_StronglySorted; [apply _|].
  apply (Sorted_weaken (λ a b, by_final_score_desc a b = true)).
  - intros x y. unfold by_final_score_desc, desc_final_score. lia.
  - apply stable_sort_Sorted. intros x y. unfold by_final_score_desc. lia.
Qed.

Lemma stable_sort_by_final_score_stable s l :
  List.filter (has_final_score s) (stable_sort by_final_score_desc l)
  = List.filter (has_final_score s) l.
Proof.
  apply stable_sort_filter. intros x y. unfold has_final_score, by_final_score_desc. lia.
Qed.

Lemma StronglySorted_list_filter {A} (R : relation A) (f : A → bool) l :
  StronglySorted R l → StronglySorted R (List.filter f l).
Proof.
  induction 1 as [|x l Hs IH Hall]; simpl; [constructor|].
  destruct (f x); [|done]. constructor; [done|].
  rewrite List.Forall_forall in *. intros y Hy. apply Hall.
  by apply List.filter_In in Hy as [Hy _].
Qed.

Lemma StronglySorted_take {A} (R : relation A) n l :
  StronglySorted R l → StronglySorted R (take n l).
Proof.
  intros Hs. rewrite <- (take_drop n l) in Hs.
  by apply StronglySorted_app_1_l in Hs.
Qed.

Lemma list_filter_take_prefix {A} (f : A → bool) n (l : list A) :
  List.filter f (take n l) `prefix_of` List.filter f l.
Proof.
  rewrite <- (take_drop n l) at 2. rewrite List.filter_app.
  by eexists.
Qed.

Lemma filter_by_score_class s min_score l :
  List.filter (has_final_score s) (filter_by_score l min_score)
  = if min_score <=? s then List.filter (has_final_score s) l else [].
Proof.
  unfold filter_by_score, has_final_score.
  induction l as [|r l IH]; simpl; [by destruct (min_score <=? s)|].
  destruct (min_score <=? final_score r) eqn:E1; simpl; rewrite IH;
    destruct (final_score r =? s) eqn:E2; destruct (min_score <=? s) eqn:E3;
    try done; lia.
Qed.

Lemma filter_by_score_floor l min_score :
  Forall (λ r, min_score ≤ final_score r) (filter_by_score l min_score).
Proof.
  unfold filter_by_score. apply Forall_forall. intros r Hr.
  apply list_elem_of_In, List.filter_In in Hr as [_ Hr]. lia.
Qed.

Lemma filter_top_posts_take config l :
  ∃ n, filter_top_posts config l = take n l.
Proof.
  unfold filter_top_posts, slice_to.
  destruct (_ <=? _).
  - exists (length l). by rewrite firstn_all.
  - destruct (_ <? _); by eexists.
Qed.

Lemma filter_top_posts_length config l :
  0 ≤ Config.max_posts_per_run config →
  Z.of_nat (length (filter_top_posts config l)) ≤ Config.max_posts_per_run config.
Proof.
  intros Hmax. unfold filter_top_posts, slice_to.
  destruct (_ <=? _) eqn:E1; [lia|].
  destruct (_ <? _) eqn:E2; [lia|].
  rewrite length_take. lia.
Qed.

Lemma process_posts_unfold list_set config w clock m posts :
  process_posts list_set config w clock m posts
  = match filter_stage w posts with
    | Ok [] => Ok ([], m, db w)
    | Ok filtered =>
        let '(sorted, m') := score_posts list_set config (db w) clock m filtered in
        let kept := filter_top_posts config (filter_by_score sorted 1) in
        Ok (kept, m', _save_posts_to_db (db w) kept)
    | Raise e => Raise e
    end.
Proof.
  unfold process_posts, filter_stage.
  destruct (filter_processed _ _) as [unprocessed|e]; [|done].
  cbn [rbind]. by destruct (filter_by_age _ _ _) as [[|p filtered]|e].
Qed.

(** C7 (as amended).  A list returned by [process_posts] is sorted by
    [final_score] in descending order; for every score, the results with
    that score appear in the order in which they were scored; every
    result has [final_score >= 1], the cap being applied to the results
    that pass this floor; the list is empty when the filter stage leaves
    no post; and its length is at most [max_posts_per_run] when that
    setting is not negative. *)
Theorem process_posts_output list_set config w clock m posts out m' d' :
  process_posts list_set config w clock m posts = Ok (out, m', d') →
  ∃ filtered,
    filter_stage w posts = Ok filtered
    ∧ StronglySorted desc_final_score out
    ∧ (∀ s, List.filter (has_final_score s) out
            `prefix_of`
            List.filter (has_final_score s)
              (score_each list_set config (db w) clock m filtered).1)
    ∧ Forall (λ r, 1 ≤ final_score r) out
    ∧ out `prefix_of`
        filter_by_score (score_posts list_set config (db w) clock m filtered).1 1
    ∧ (filtered = [] → out = [])
    ∧ (0 ≤ Config.max_posts_per_run config →
       Z.of_nat (length out) ≤ Config.max_posts_per_run config).
Proof.
  rewrite process_posts_unfold.
  destruct (filter_stage w posts) as [filtered|e] eqn:Hstage; [|done].
  intros Hrun. exists filtered. split; [done|].
  destruct filtered as [|p filtered].
  { injection Hrun as <- _ _. repeat split; try done; try constructor.
    all: apply prefix_nil. }
  unfold score_posts in *.
  destruct (score_each _ _ _ _ _ _) as [scored m1] eqn:Hscored.
  cbn zeta in Hrun. injection Hrun as <- _ _. cbn [fst].
  destruct (filter_top_posts_take config
              (filter_by_score (stable_sort by_final_score_desc scored) 1)) as [n Hn].
  repeat split.
  - rewrite Hn. apply StronglySorted_take, StronglySorted_list_filter.
    apply stable_sort_by_final_score_sorted.
  - intros s. rewrite Hn. cbn [fst].
    etrans; [apply list_filter_take_prefix|].
    rewrite filter_by_score_class, stable_sort_by_final_score_stable.
    destruct (1 <=? s); [done|apply prefix_nil].
  - rewrite Hn. apply Forall_take, filter_by_score_floor.
  - rewrite Hn. apply prefix_take.
  - done.
  - apply filter_top_posts_length.
Qed.

End SortingAndEngine.

Lemma process_posts_output_witness :
  ∃ out,
    (final_score <$> out) = [18; 17; 15; 3]
    ∧ StronglySorted desc_final_score out
    ∧ Forall (λ r, 1 ≤ final_score r) out.
Proof.
  edestruct (process_posts_output sample_list_set (config_with_cap 20) sample_world
               (λ _, sample_now) new_matcher sample_posts)
    as (filtered & _ & Hsorted & _ & Hfloor & _ & _).
  - vm_compute. reflexivity.
  - eexists. split; [|split; [exact Hsorted|exact Hfloor]]. reflexivity.
Defined.

(** C7, the claim as stated fails: with [max_posts_per_run = -1] the
    slice [scoring_results[:-1]] only drops the last result, and three
    results are returned. *)
Lemma process_posts_negative_cap_counterexample :
  ∃ out m' d',
    process_posts sample_list_set (config_with_cap (-1)) sample_world
      (λ _, sample_now) new_matcher sample_posts = Ok (out, m', d')
    ∧ length out = 3%nat
    ∧ ¬ (Z.of_nat (length out) ≤ Config.max_posts_per_run (config_with_cap (-1))).
Proof.
  eexists _, _, _. split; [vm_compute; reflexivity|].
  split; [reflexivity|]. vm_compute. intros H. apply H. reflexivity.
Qed.

Section EngineReturns.
Context `{Unicode : !Regex.Text}.

Lemma get_keywords_returns d cat :
  sqlite_faults_only d → ∃ rows, get_keywords d cat = Ok rows.
Proof.
  unfold get_keywords, except_sqlite, execute.
  intros [-> | ->]; by eexists.
Qed.

Lemma is_post_processed_returns d platform post_id :
  sqlite_faults_only d → ∃ b, is_post_processed d platform post_id = Ok b.
Proof.
  unfold is_post_processed, except_sqlite, execute.
  intros [-> | ->]; by eexists.
Qed.

Lemma filter_processed_returns d posts :
  sqlite_faults_only d → ∃ l, filter_processed d posts = Ok l.
Proof.
  intros Hd. induction posts as [|p posts [l IH]]; simpl; [by eexists|].
  destruct (is_post_processed_returns d (value (platform p)) (post_id p) Hd) as [b ->].
  rewrite IH. simpl. by eexists.
Qed.

Lemma filter_by_age_returns w posts h :
  0 ≤ now w - h * HOUR ≤ datetime_max →
  -999999999 * DAY ≤ h * HOUR < 1000000000 * DAY →
  filter_by_age w posts h
  = Ok (List.filter (λ p, now w - h * HOUR <=? timestamp p) posts).
Proof.
  intros Hrange Hdelta. unfold filter_by_age, timedelta_hours, datetime_sub.
  rewrite bool_decide_eq_true_2.
  - cbn [rbind]. by rewrite bool_decide_eq_true_2.
  - unfold DAY, SECOND in *. split.
    + apply Z.div_le_lower_bound; lia.
    + apply Z.lt_succ_r, Z.div_lt_upper_bound; lia.
Qed.

(** [process_posts] returns a list whenever the clock reading is a
    datetime at least one day after [datetime.min] and the database
    fails, if at all, with an [sqlite3.Error]. *)
Lemma process_posts_returns list_set config w clock m posts :
  sqlite_faults_only (db w) →
  DAY ≤ now w ≤ datetime_max →
  ∃ out m' d', process_posts list_set config w clock m posts = Ok (out, m', d').
Proof.
  intros Hd Hnow. rewrite process_posts_unfold. unfold filter_stage.
  destruct (filter_processed_returns (db w) (filter_duplicates posts) Hd) as [l ->].
  cbn [rbind]. rewrite filter_by_age_returns.
  - destruct (List.filter _ l); [by eexists _, _, _|].
    destruct (score_posts _ _ _ _ _ _). by eexists _, _, _.
  - unfold DAY, HOUR, SECOND in *. lia.
  - unfold DAY, HOUR, SECOND. lia.
Qed.

(** ** [filter_duplicates] *)

Lemma dedup_loop_first_seen posts : ∀ seen,
  dedup_loop seen posts
  = concat (imap (λ i p, if bool_decide (post_key p ∈ seen
                                         ∨ post_key p ∈ post_key <$> take i posts)
                         then [] else [p]) posts).
Proof.
  induction posts as [|p posts IH]; intros seen; [done|].
  cbn [dedup_loop]. rewrite imap_cons. cbn [concat]. cbn beta.
  case_bool_decide as Hseen.
  - rewrite bool_decide_eq_false_2; cycle 1.
    { cbn. rewrite elem_of_nil. tauto. }
    cbn [app]. f_equal. rewrite IH. f_equal. apply imap_ext.
    intros i q _. cbn. apply (f_equal (λ b : bool, if b then [] else [q])).
    apply bool_decide_ext. rewrite elem_of_union, elem_of_singleton, elem_of_cons.
    tauto.
  - rewrite bool_decide_eq_true_2 by (by left).
    cbn [app]. rewrite IH. f_equal. apply imap_ext.
    intros i q _. cbn. apply (f_equal (λ b : bool, if b then [] else [q])).
    apply bool_decide_ext. rewrite elem_of_cons.
    split; [tauto|].
    intros [?|[->|?]]; tauto.
Qed.

Lemma dedup_loop_sublist posts : ∀ seen, dedup_loop seen posts `sublist_of` posts.
Proof.
  induction posts as [|p posts IH]; intros seen; [done|].
  cbn [dedup_loop]. case_bool_decide.
  - apply sublist_skip, IH.
  - apply sublist_cons, IH.
Qed.

Lemma dedup_loop_fresh posts : ∀ seen p,
  p ∈ dedup_loop seen posts → post_key p ∉ seen.
Proof.
  induction posts as [|q posts IH]; intros seen p Hp.
  - by apply elem_of_nil in Hp.
  - cbn [dedup_loop] in Hp. case_bool_decide as Hseen.
    + apply elem_of_cons in Hp as [->|Hp]; [done|].
      apply IH in Hp. set_solver.
    + by apply IH in Hp.
Qed.

Lemma dedup_loop_NoDup posts : ∀ seen, NoDup (post_key <$> dedup_loop seen posts).
Proof.
  induction posts as [|q posts IH]; intros seen; [constructor|].
  cbn [dedup_loop]. case_bool_decide as Hseen; [|apply IH].
  rewrite fmap_cons. constructor; [|apply IH].
  intros Hin. apply list_elem_of_fmap in Hin as (p & Hkey & Hp).
  apply dedup_loop_fresh in Hp. apply Hp.
  apply elem_of_union_l, elem_of_singleton. congruence.
Qed.

Lemma dedup_loop_id posts : ∀ seen,
  NoDup (post_key <$> posts) →
  (∀ p, p ∈ posts → post_key p ∉ seen) →
  dedup_loop seen posts = posts.
Proof.
  induction posts as [|q posts IH]; intros seen Hnd Hfresh; [done|].
  cbn [dedup_loop]. rewrite fmap_cons in Hnd. apply NoDup_cons in Hnd as [Hq Hnd].
  rewrite bool_decide_eq_true_2 by (apply Hfresh; left).
  f_equal. apply IH; [done|].
  intros p Hp. rewrite not_elem_of_union, not_elem_of_singleton. split.
  - intros Heq. apply Hq. rewrite <- Heq. apply list_elem_of_fmap. by exists p.
  - apply Hfresh. by right.
Qed.

(** C9.  [filter_duplicates] keeps exactly the posts that are the first
    of their [(platform, post_id)] key, in their original order; no key
    is left twice; and filtering a second time changes nothing. *)
Theorem filter_duplicates_first_seen_idempotent (posts : list Post) :
  filter_duplicates posts = first_of_each_key posts
  ∧ filter_duplicates posts `sublist_of` posts
  ∧ NoDup (post_key <$> filter_duplicates posts)
  ∧ filter_duplicates (filter_duplicates posts) = filter_duplicates posts.
Proof.
  unfold filter_duplicates. repeat split.
  - rewrite dedup_loop_first_seen. unfold first_of_each_key. f_equal.
    apply imap_ext. intros i q _. cbn.
    apply (f_equal (λ b : bool, if b then [] else [q])).
    apply bool_decide_ext. rewrite elem_of_empty. tauto.
  - apply dedup_loop_sublist.
  - apply dedup_loop_NoDup.
  - apply dedup_loop_id; [apply dedup_loop_NoDup|].
    intros p _. apply not_elem_of_empty.
Qed.

End EngineReturns.

Example filter_duplicates_sample :
  post_id <$> filter_duplicates sample_posts = ["p1"; "p2"; "p3"; "p4"; "p5"]%string.
Proof. vm_compute. reflexivity. Qed.

(** ** The keyword matcher *)

Section MatcherAndScorer.
Context `{Unicode : !Regex.Text}.

Lemma _get_keywords_returns w m :
  sqlite_faults_only (db w) → ∃ kws m', _get_keywords w m = Ok (kws, m').
Proof.
  intros Hd. unfold _get_keywords.
  destruct (get_keywords_returns (db w) None Hd) as [rows Hrows].
  destruct (_keyword_cache m), (_cache_timestamp m); rewrite ?Hrows; cbn [rbind];
    try (by eexists _, _).
  destruct (_ <? _); rewrite ?Hrows; cbn [rbind]; by eexists _, _.
Qed.

Lemma match_loop_filter text_lower kws :
  match_loop text_lower kws
  = List.filter (λ r, Regex.search (keyword r) text_lower) kws.
Proof.
  induction kws as [|[[kw cat] v] kws IH]; [done|].
  cbn [match_loop List.filter]. rewrite IH.
  change (keyword (kw, cat, v)) with kw.
  by destruct (Regex.search kw text_lower).
Qed.

Lemma find_matches_empty w m : find_matches w m "" = Ok ([], m).
Proof. reflexivity. Qed.

Lemma find_matches_nonempty w m text :
  text ≠ ""%string →
  find_matches w m text
  = let* '(kws, m') := _get_keywords w m in
    Ok (List.filter (λ r, Regex.search (keyword r) (Regex.lower text)) kws, m').
Proof.
  intros Htext. unfold find_matches.
  destruct (String.eqb_spec text ""); [done|].
  destruct (_get_keywords w m) as [[kws m']|e]; [|done].
  cbn [rbind]. by rewrite match_loop_filter.
Qed.

Lemma find_matches_returns w m text :
  sqlite_faults_only (db w) → ∃ matches m', find_matches w m text = Ok (matches, m').
Proof.
  intros Hd. unfold find_matches. destruct (String.eqb text ""); [by eexists _, _|].
  destruct (_get_keywords_returns w m Hd) as (kws & m' & ->).
  cbn [rbind]. by eexists _, _.
Qed.

(** A call of [find_matches] returns matches of keywords of the cache it
    leaves behind. *)
Lemma find_matches_inv w m text matches m' :
  find_matches w m text = Ok (matches, m') →
  (text = ""%string ∧ matches = [] ∧ m' = m)
  ∨ (text ≠ ""%string
     ∧ ∃ kws, _get_keywords w m = Ok (kws, m')
              ∧ matches = List.filter (λ r, Regex.search (keyword r) (Regex.lower text)) kws).
Proof.
  destruct (decide (text = ""%string)) as [->|Htext].
  - rewrite find_matches_empty. intros [= <- <-]. by left.
  - rewrite find_matches_nonempty by done.
    destruct (_get_keywords w m) as [[kws m1]|e]; [|done].
    cbn [rbind]. intros [= <- <-]. right. split; [done|]. by exists kws.
Qed.

(** ** Recent posts *)

Lemma is_recent_iff now p :
  is_recent now p = true ↔ now - timestamp p < 60 * MINUTE.
Proof.
  unfold is_recent, age_minutes, MINUTE, SECOND.
  rewrite Z.ltb_lt.
  destruct (Z.le_gt_cases 0 (now - timestamp p)) as [Hpos|Hneg].
  - rewrite Z.quot_div_nonneg by lia. split.
    + intros H. apply Z.nle_gt. intros Hle.
      apply (Z.div_le_lower_bound _ (60 * 1000000) 60) in Hle; lia.
    + intros H. apply Z.div_lt_upper_bound; lia.
  - assert ((now - timestamp p) `quot` (60 * 1000000) ≤ 0).
    { rewrite <- (Z.quot_0_l (60 * 1000000)) by lia. apply Z.quot_le_mono; lia. }
    lia.
Qed.

Lemma future_post_age now p :
  now ≤ timestamp p → age_minutes now p ≤ 0.
Proof.
  intros H. unfold age_minutes, MINUTE, SECOND.
  rewrite <- (Z.quot_0_l (60 * 1000000)) by lia. apply Z.quot_le_mono; lia.
Qed.

(** ** The post scorer *)

Lemma score_loop_distinct matches : ∀ counts total,
  NoDup (keyword <$> matches) →
  (∀ r, r ∈ matches → counts !! keyword r = None) →
  score_loop counts total matches = total + total_weight matches.
Proof.
  induction matches as [|[[kw cat] v] rest IH]; intros counts total Hnd Hfresh.
  - simpl. lia.
  - rewrite fmap_cons in Hnd. apply NoDup_cons in Hnd as [Hkw Hnd].
    cbn [score_loop]. pose proof (Hfresh (kw, cat, v)) as Hnone.
    change (keyword (kw, cat, v)) with kw in Hnone. rewrite Hnone by left.
    cbn [default]. unfold id. change (0 + 1 =? 1) with true. cbn iota.
    rewrite IH; [cbn [total_weight foldr]; fold (total_weight rest);
                 change (score_value (kw, cat, v)) with v; lia|done|].
    intros r Hr. rewrite lookup_insert_ne.
    + apply Hfresh. by right.
    + intros Heq. apply Hkw. change kw with (keyword (kw, cat, v)). rewrite Heq.
      apply list_elem_of_fmap. by exists r.
Qed.

Lemma calculate_keyword_score_distinct matches :
  NoDup (keyword <$> matches) →
  calculate_keyword_score matches = total_weight matches.
Proof.
  intros Hnd. transitivity (score_loop ∅ 0 matches); [by destruct matches|].
  rewrite score_loop_distinct; [lia|done|].
  intros r _. apply lookup_empty.
Qed.

Lemma score_post_inv list_set config w m p r m' :
  score_post list_set config w m p = Ok (r, m') →
  ∃ title_matches content_matches m1,
    find_matches w m (title p) = Ok (title_matches, m1)
    ∧ find_matches w m1 (content p) = Ok (content_matches, m')
    ∧ keyword_score r
      = calculate_keyword_score (list_set (title_matches ++ content_matches))
    ∧ time_bonus r
      = (if is_recent (now w) p then Config.recent_post_bonus config else 0)
    ∧ link_penalty r
      = (if has_external_links p then Config.external_link_penalty config else 0)
    ∧ final_score r = keyword_score r + time_bonus r + link_penalty r
    ∧ matched_keywords r = keyword <$> list_set (title_matches ++ content_matches)
    ∧ score (post r) = final_score r
    ∧ keyword_matches (post r) = matched_keywords r.
Proof.
  unfold score_post.
  destruct (find_matches w m (title p)) as [[tm m1]|e]; [|done]. cbn [rbind].
  destruct (find_matches w m1 (content p)) as [[cm m2]|e] eqn:Hcontent; [|done].
  cbn [rbind]. intros [= <- <-]. by exists tm, cm, m1.
Qed.

Lemma score_post_returns list_set config w m p :
  sqlite_faults_only (db w) →
  ∃ r m', score_post list_set config w m p = Ok (r, m').
Proof.
  intros Hd. unfold score_post.
  destruct (find_matches_returns w m (title p) Hd) as (tm & m1 & ->). cbn [rbind].
  destruct (find_matches_returns w m1 (content p) Hd) as (cm & m2 & ->). cbn [rbind].
  by eexists _, _.
Qed.

(** After a call of [_get_keywords] the cache is fresh at the same clock
    reading. *)
Lemma _get_keywords_again w m kws m1 :
  _get_keywords w m = Ok (kws, m1) → _get_keywords w m1 = Ok (kws, m1).
Proof.
  intros H. unfold _get_keywords in *.
  destruct (_keyword_cache m) as [cached|] eqn:Hc, (_cache_timestamp m) as [t|] eqn:Ht;
    [destruct (_cache_ttl * SECOND <? now w - t) eqn:Hold|..];
    try (destruct (get_keywords (db w) None) as [rows|]; [|done];
         cbn [rbind] in H; injection H as <- <-; cbn; by rewrite Z.sub_diag).
  injection H as <- <-. by rewrite Hc, Ht, Hold.
Qed.

(** When [score_post] raises, the exception comes from a cache refresh
    that did not complete: the matcher is as it was before the call. *)
Lemma score_post_raise_keeps_matcher list_set config w m p e :
  score_post list_set config w m p = Raise e →
  find_matches w m (title p) = Raise e
  ∨ ∃ title_matches,
      find_matches w m (title p) = Ok (title_matches, m)
      ∧ find_matches w m (content p) = Raise e.
Proof.
  unfold score_post.
  destruct (find_matches w m (title p)) as [[tm m1]|e1] eqn:Htitle; cbn [rbind].
  - destruct (find_matches w m1 (content p)) as [[cm m2]|e2] eqn:Hcontent;
      cbn [rbind]; [done|].
    intros [= ->]. right. exists tm.
    apply find_matches_inv in Htitle as [(_ & _ & ->)|(_ & kws & Hget & _)]; [done|].
    apply _get_keywords_again in Hget.
    destruct (decide (content p = ""%string)) as [Hempty|Hne].
    + rewrite Hempty, find_matches_empty in Hcontent. done.
    + rewrite find_matches_nonempty, Hget in Hcontent by done. done.
  - intros [= ->]. by left.
Qed.

(** C4.  Whatever order [list(set(...))] yields, [score_post] scores the
    duplicate-free union of the title matches and the content matches (a
    tuple found in both is there once; when the keyword texts of the
    union are distinct the keyword score is the plain sum of the weights),
    the time bonus is [recent_post_bonus] exactly when the post is less
    than 60 minutes old and 0 otherwise, the link penalty is
    [external_link_penalty] exactly when the post has external links and 0
    otherwise, and the final score is the sum of the three. *)
Theorem score_post_composition list_set config w m p :
  (∀ l, list_set l ≡ₚ remove_dups l) →
  (sqlite_faults_only (db w) → ∃ r m', score_post list_set config w m p = Ok (r, m'))
  ∧ (∀ r m',
      score_post list_set config w m p = Ok (r, m') →
      ∃ title_matches content_matches m1,
        find_matches w m (title p) = Ok (title_matches, m1)
        ∧ find_matches w m1 (content p) = Ok (content_matches, m')
        ∧ let unique_matches := list_set (title_matches ++ content_matches) in
          NoDup unique_matches
          ∧ (∀ x, x ∈ unique_matches ↔ x ∈ title_matches ∨ x ∈ content_matches)
          ∧ keyword_score r = calculate_keyword_score unique_matches
          ∧ (NoDup (keyword <$> unique_matches) →
             keyword_score r = total_weight unique_matches)
          ∧ time_bonus r
            = (if bool_decide (now w - timestamp p < 60 * MINUTE)
               then Config.recent_post_bonus config else 0)
          ∧ link_penalty r
            = (if has_external_links p then Config.external_link_penalty config else 0)
          ∧ final_score r = keyword_score r + time_bonus r + link_penalty r).
Proof.
  intros Hset. split; [apply score_post_returns|].
  intros r m' Hrun.
  apply score_post_inv in Hrun
    as (tm & cm & m1 & Htitle & Hcontent & Hkw & Htime & Hlink & Hfinal & _).
  exists tm, cm, m1. repeat split; try done.
  - rewrite Hset. apply NoDup_remove_dups.
  - rewrite Hset, elem_of_remove_dups, elem_of_app. tauto.
  - rewrite Hset, elem_of_remove_dups, elem_of_app. tauto.
  - intros Hnd. rewrite Hkw. by apply calculate_keyword_score_distinct.
  - rewrite Htime. destruct (is_recent (now w) p) eqn:Hrecent.
    + rewrite bool_decide_eq_true_2; [done|]. by apply is_recent_iff.
    + rewrite bool_decide_eq_false_2; [done|].
      rewrite <- is_recent_iff. congruence.
Qed.

End MatcherAndScorer.

Lemma score_post_composition_witness :
  ∃ r m',
    score_post remove_dups Config.default sample_world new_matcher
      (sample_post "p1" "Table saw safety tips" "..." (sample_now - 5 * MINUTE) false)
    = Ok (r, m').
Proof.
  apply (score_post_composition remove_dups Config.default sample_world new_matcher).
  - reflexivity.
  - left. reflexivity.
Defined.

(** The end-to-end scenario of the specification. *)
Example score_post_table_saw_safety :
  ∃ r m',
    score_post remove_dups Config.default
      {| now := sample_now;
         db := {| fault := None;
                  keywords := [("table saw", "tools", 8); ("safety", "general", 5)]%string;
                  posts := ∅ |} |}
      new_matcher
      (sample_post "p1" "Table saw safety tips" "..." (sample_now - 5 * MINUTE) false)
    = Ok (r, m')
    ∧ keyword_score r = 13 ∧ time_bonus r = 2 ∧ link_penalty r = 0 ∧ final_score r = 15.
Proof. eexists _, _. split; [vm_compute; reflexivity|]. repeat split. Qed.

(** The penalty is added, so a final score can be negative. *)
Example score_post_below_zero :
  ∃ r m',
    score_post remove_dups Config.default sample_world new_matcher
      (sample_post "p9" "Nothing of interest" "see my shop" (sample_now - 5 * HOUR) true)
    = Ok (r, m')
    ∧ final_score r = -1.
Proof. eexists _, _. split; [vm_compute; reflexivity|]. reflexivity. Qed.

(** ** Future-dated posts *)

Section FutureDatedPosts.
Context `{Unicode : !Regex.Text}.

Lemma filter_by_age_inv w posts h kept :
  filter_by_age w posts h = Ok kept →
  kept = List.filter (λ p, now w - h * HOUR <=? timestamp p) posts.
Proof.
  unfold filter_by_age, timedelta_hours, datetime_sub.
  case_bool_decide; [|done]. cbn [rbind].
  case_bool_decide; [|done]. cbn [rbind]. by intros [= <-].
Qed.

Lemma filter_by_age_before_datetime_min w posts h :
  0 ≤ h → now w - h * HOUR < 0 → filter_by_age w posts h = Raise OverflowError.
Proof.
  intros Hh Hlow. unfold filter_by_age, timedelta_hours, datetime_sub.
  case_bool_decide; [|done]. cbn [rbind].
  rewrite bool_decide_eq_false_2; [done|lia].
Qed.

(** C10 (as amended).  A post whose timestamp is at or after the clock
    reading is retained by [filter_by_age] for every [max_age_hours >= 0]
    for which the call returns: it returns when the cutoff is not before
    [datetime.min] and raises [OverflowError] when it is.  The truncated
    age in minutes of the post is at most 0, so it is recent and
    [score_post] grants it the full [recent_post_bonus].  Nor does the
    pipeline bound the timestamp: the age filter of [process_posts], run
    with 24 hours, keeps the post when the filters before it have. *)
Theorem future_post_kept_and_recent list_set config w m posts p max_age_hours :
  now w ≤ timestamp p →
  p ∈ posts →
  0 ≤ max_age_hours →
  (∀ kept, filter_by_age w posts max_age_hours = Ok kept → p ∈ kept)
  ∧ (0 ≤ now w - max_age_hours * HOUR → now w ≤ datetime_max →
     ∃ kept, filter_by_age w posts max_age_hours = Ok kept ∧ p ∈ kept)
  ∧ (now w - max_age_hours * HOUR < 0 →
     filter_by_age w posts max_age_hours = Raise OverflowError)
  ∧ age_minutes (now w) p ≤ 0
  ∧ is_recent (now w) p = true
  ∧ (∀ r m', score_post list_set config w m p = Ok (r, m') →
             time_bonus r = Config.recent_post_bonus config)
  ∧ (∀ unprocessed,
       filter_processed (db w) (filter_duplicates posts) = Ok unprocessed →
       p ∈ unprocessed →
       (∀ filtered, filter_stage w posts = Ok filtered → p ∈ filtered)
       ∧ (DAY ≤ now w ≤ datetime_max →
          ∃ filtered, filter_stage w posts = Ok filtered ∧ p ∈ filtered)).
Proof.
  intros Hfuture Hin Hhours.
  assert (Hkeeps : ∀ l h, p ∈ l → 0 ≤ h →
            p ∈ List.filter (λ q, now w - h * HOUR <=? timestamp q) l).
  { intros l h Hl Hh. apply list_elem_of_In, List.filter_In.
    split; [by apply list_elem_of_In|]. unfold HOUR, SECOND. lia. }
  assert (Hrecent : is_recent (now w) p = true).
  { apply is_recent_iff. unfold MINUTE, SECOND. lia. }
  split; [|split; [|split; [|split; [|split; [|split]]]]].
  - intros kept Hrun. rewrite (filter_by_age_inv _ _ _ _ Hrun).
    exact (Hkeeps posts max_age_hours Hin Hhours).
  - intros Hlow Hhigh. eexists. split; [|exact (Hkeeps posts max_age_hours Hin Hhours)].
    apply filter_by_age_returns; unfold datetime_max, DAY, HOUR, SECOND in *; lia.
  - intros Hlow. by apply filter_by_age_before_datetime_min.
  - by apply future_post_age.
  - done.
  - intros r m' Hrun.
    apply score_post_inv in Hrun as (_ & _ & _ & _ & _ & _ & Htime & _).
    by rewrite Htime, Hrecent.
  - intros unprocessed Hunprocessed Hp. unfold filter_stage. rewrite Hunprocessed.
    cbn [rbind]. split.
    + intros filtered Hrun. rewrite (filter_by_age_inv _ _ _ _ Hrun).
      apply (Hkeeps unprocessed 24 Hp). lia.
    + intros Hnow. eexists. split; [|apply (Hkeeps unprocessed 24 Hp); lia].
      apply filter_by_age_returns; unfold datetime_max, DAY, HOUR, SECOND in *; lia.
Qed.

End FutureDatedPosts.

Lemma future_post_kept_and_recent_witness :
  ∃ kept,
    filter_by_age sample_world
      [sample_post "p7" "Router table" "" (sample_now + 3 * DAY) false] 24 = Ok kept
    ∧ sample_post "p7" "Router table" "" (sample_now + 3 * DAY) false ∈ kept.
Proof.
  apply (future_post_kept_and_recent remove_dups Config.default sample_world new_matcher
           [sample_post "p7" "Router table" "" (sample_now + 3 * DAY) false]
           (sample_post "p7" "Router table" "" (sample_now + 3 * DAY) false) 24).
  - vm_compute. discriminate.
  - left.
  - lia.
  - vm_compute. discriminate.
  - vm_compute. discriminate.
Defined.

(** C10, the claim as stated fails for a negative [max_age_hours], where
    the cutoff lies after the clock reading and the post is dropped, and
    for a [max_age_hours] that puts the cutoff before [datetime.min],
    where the call raises and retains nothing. *)
Lemma filter_by_age_negative_hours_counterexample :
  now sample_world ≤ timestamp (sample_post "p8" "Planer" "" (sample_now + 30 * MINUTE) false)
  ∧ filter_by_age sample_world
      [sample_post "p8" "Planer" "" (sample_now + 30 * MINUTE) false] (-1)
    = Ok []
  ∧ filter_by_age sample_world
      [sample_post "p8" "Planer" "" (sample_now + 30 * MINUTE) false] 20000000
    = Raise OverflowError.
Proof. split; [vm_compute; discriminate|]. split; reflexivity. Qed.

(** ** Whole-word matching *)

Section WholeWordMatching.
Context `{Unicode : !Regex.Text}.

Lemma search_match_at keyword text :
  Regex.search keyword text = true →
  ∃ i, Regex.match_at (Regex.chars keyword) (Regex.chars text) i = true.
Proof.
  unfold Regex.search. intros H. apply existsb_exists in H as (i & _ & Hi). by exists i.
Qed.

Lemma match_at_inv kw s i :
  Regex.match_at kw s i = true →
  Regex.at_boundary s i = true ∧ occurs_at kw s i
  ∧ Regex.at_boundary s (i + length kw) = true.
Proof.
  unfold Regex.match_at, Regex.literal_at.
  rewrite !andb_true_iff, bool_decide_eq_true. tauto.
Qed.

Lemma at_boundary_not_inside s i :
  Regex.at_boundary s i = true → ¬ inside_token s i.
Proof.
  unfold Regex.at_boundary, inside_token. intros Hx [H1 H2].
  rewrite H1, H2 in Hx. done.
Qed.

Lemma occurs_at_lookup kw s i j c :
  occurs_at kw s i → kw !! j = Some c → s !! (i + j)%nat = Some c.
Proof.
  unfold occurs_at. intros Hocc Hj.
  pose proof (lookup_lt_Some _ _ _ Hj) as Hlt.
  rewrite <- Hocc in Hj. rewrite lookup_take_lt in Hj by done.
  by rewrite lookup_drop in Hj.
Qed.

Lemma word_ended_boundaries kw s i :
  word_ended kw → occurs_at kw s i →
  Regex.word_at s i = true ∧ Regex.word_before s (i + length kw) = true.
Proof.
  intros (first & final & Hfirst & Hlast & Hwf & Hwl) Hocc.
  rewrite last_lookup in Hlast.
  pose proof (lookup_lt_Some _ _ _ Hfirst) as Hlen.
  split.
  - unfold Regex.word_at.
    rewrite <- (Nat.add_0_r i). by rewrite (occurs_at_lookup _ _ _ _ _ Hocc Hfirst).
  - replace (i + length kw)%nat with (S (i + pred (length kw))) by lia.
    cbn [Regex.word_before]. unfold Regex.word_at.
    by rewrite (occurs_at_lookup _ _ _ _ _ Hocc Hlast).
Qed.

(** C5.  A keyword reported by [find_matches] occurs in the lower-cased
    text at a place where it is not cut out of a larger token: no token
    continues across its start or across its end.  So a keyword all of
    whose occurrences are strict substrings of larger tokens is never
    reported; and for a keyword that starts and ends with a word
    character the characters around the occurrence are non-word
    characters or the ends of the text. *)
Theorem find_matches_whole_words_only w m text matches m' row :
  find_matches w m text = Ok (matches, m') →
  row ∈ matches →
  let kw := Regex.chars (keyword row) in
  let s := Regex.chars (Regex.lower text) in
  (∃ i, whole_word_at kw s i)
  ∧ ¬ (∀ i, occurs_at kw s i → substring_of_larger_token kw s i)
  ∧ (word_ended kw →
     ∃ i, occurs_at kw s i
          ∧ Regex.word_before s i = false
          ∧ Regex.word_at s (i + length kw) = false).
Proof.
  intros Hrun Hrow kw s.
  apply find_matches_inv in Hrun as [(_ & -> & _)|(_ & kws & _ & ->)].
  { by apply elem_of_nil in Hrow. }
  apply list_elem_of_In, List.filter_In in Hrow as [_ Hsearch].
  apply search_match_at in Hsearch as [i Hi].
  apply match_at_inv in Hi as (Hstart & Hocc & Hend).
  fold kw s in Hstart, Hocc, Hend.
  assert (Hww : whole_word_at kw s i).
  { split; [done|]. split; by apply at_boundary_not_inside. }
  repeat split.
  - by exists i.
  - intros Hall. destruct (Hall i Hocc) as [_ [Hin|Hin]];
      by destruct Hww as (_ & ? & ?).
  - intros Hends. exists i. split; [done|].
    destruct (word_ended_boundaries kw s i Hends Hocc) as [Hat Hbefore].
    unfold Regex.at_boundary in Hstart, Hend.
    rewrite Hat in Hstart. rewrite Hbefore in Hend.
    split.
    + by destruct (Regex.word_before s i).
    + by destruct (Regex.word_at s (i + length kw)).
Qed.

End WholeWordMatching.

Lemma find_matches_whole_words_only_witness :
  ∃ i, whole_word_at (Regex.chars "table saw")
         (Regex.chars (Regex.lower "My new Table Saw, at last")) i.
Proof.
  edestruct (find_matches_whole_words_only sample_world new_matcher
               "My new Table Saw, at last") as [Hword _].
  - vm_compute. reflexivity.
  - left.
  - exact Hword.
Defined.

Example find_matches_jigsaw :
  ∃ m', find_matches
          {| now := sample_now;
             db := {| fault := None; keywords := [("saw", "tools", 5)]%string; posts := ∅ |} |}
          new_matcher "A new jigsaw" = Ok ([], m').
Proof. eexists. vm_compute. reflexivity. Qed.

(** ** One entry per keyword *)

Section OneEntryPerKeyword.
Context `{Unicode : !Regex.Text}.







End OneEntryPerKeyword.



(** ** A failing keyword store *)

Section FailingKeywordStore.
Context `{Unicode : !Regex.Text}.

Lemma _get_keywords_refresh w m :
  needs_refresh w m →
  _get_keywords w m
  = let* rows := get_keywords (db w) None in
    Ok (rows, {| _keyword_cache := Some rows; _cache_timestamp := Some (now w) |}).
Proof.
  unfold needs_refresh, _get_keywords.
  destruct (_keyword_cache m), (_cache_timestamp m); try done.
  intros Hold. by rewrite (proj2 (Z.ltb_lt _ _) Hold).
Qed.

(** C2 (as amended).  When the read of the keyword store fails during a
    cache refresh with an [sqlite3.Error], [get_keywords] of the database
    manager returns the empty list, the matcher caches it, and
    [_get_keywords] and [find_matches] return the empty list without an
    error; an exception of another class propagates to the caller. *)
Theorem keyword_store_failure w m text e :
  needs_refresh w m →
  fault (db w) = Some e →
  text ≠ ""%string →
  (e = SqliteError →
     _get_keywords w m = Ok ([], emptied_cache w)
     ∧ find_matches w m text = Ok ([], emptied_cache w))
  ∧ (e ≠ SqliteError →
     _get_keywords w m = Raise e ∧ find_matches w m text = Raise e).
Proof.
  intros Hrefresh Hfault Htext.
  rewrite find_matches_nonempty by done.
  rewrite _get_keywords_refresh by done.
  unfold get_keywords, except_sqlite, execute. rewrite Hfault.
  split.
  - by intros ->.
  - intros Hne. by destruct e.
Qed.

End FailingKeywordStore.

Lemma keyword_store_failure_witness :
  find_matches
    {| now := sample_now;
       db := {| fault := Some SqliteError; keywords := sample_keywords; posts := ∅ |} |}
    new_matcher "Table saw safety tips"
  = Ok ([], {| _keyword_cache := Some []; _cache_timestamp := Some sample_now |}).
Proof.
  apply (keyword_store_failure
           {| now := sample_now;
              db := {| fault := Some SqliteError; keywords := sample_keywords;
                       posts := ∅ |} |}
           new_matcher "Table saw safety tips" SqliteError).
  - vm_compute. exact I.
  - reflexivity.
  - discriminate.
  - reflexivity.
Defined.

(** An exception that is not an [sqlite3.Error] reaches the caller. *)
Example other_error_propagates :
  find_matches
    {| now := sample_now;
       db := {| fault := Some OtherError; keywords := sample_keywords; posts := ∅ |} |}
    new_matcher "Table saw safety tips"
  = Raise OtherError.
Proof. reflexivity. Qed.

(** The empty list stays in the cache: 100 seconds after the failure the
    store answers again, and the text still has no match. *)
Example emptied_cache_is_kept :
  find_matches {| now := sample_now + 100 * SECOND; db := sample_db |}
    {| _keyword_cache := Some []; _cache_timestamp := Some sample_now |}
    "Table saw safety tips"
  = Ok ([], {| _keyword_cache := Some []; _cache_timestamp := Some sample_now |}).
Proof. reflexivity. Qed.

(** C2, the claim as stated fails: the store read fails, no error reaches
    the caller, and the text is matched against an empty keyword set,
    while the same text has two matches when the store answers. *)
Lemma keyword_store_failure_counterexample :
  _get_keywords
    {| now := sample_now;
       db := {| fault := Some SqliteError; keywords := sample_keywords; posts := ∅ |} |}
    new_matcher
  = Ok ([], {| _keyword_cache := Some []; _cache_timestamp := Some sample_now |})
  ∧ find_matches
      {| now := sample_now;
         db := {| fault := Some SqliteError; keywords := sample_keywords; posts := ∅ |} |}
      new_matcher "Table saw safety tips"
    = Ok ([], {| _keyword_cache := Some []; _cache_timestamp := Some sample_now |})
  ∧ ∃ m', find_matches sample_world new_matcher "Table saw safety tips"
          = Ok ([("safety", "general", 5); ("table saw", "tools", 8)]%string, m').
Proof. repeat split. eexists. vm_compute. reflexivity. Qed.

(** ** The order of [get_keywords] *)

Section KeywordOrder.
Context `{Unicode : !Regex.Text}.

Lemma string_ltb_lt s1 s2 :
  String.ltb s1 s2 = true ↔ s1 ≠ s2 ∧ String.le s1 s2.
Proof.
  unfold String.le, String.ltb, String.leb.
  destruct (s1 ?= s2)%string eqn:Hcmp.
  - apply String.compare_eq_iff in Hcmp as ->. split; [done|]. by intros [? _].
  - split; [|done]. intros _. split; [|done].
    intros ->. pose proof (String.compare_antisym s2 s2) as Hanti.
    rewrite Hcmp in Hanti. discriminate.
  - split; [done|]. by intros [_ ?].
Qed.

Lemma by_score_keyword_order r1 r2 :
  by_score_keyword r1 r2 = true ↔ keyword_order r1 r2.
Proof.
  unfold by_score_keyword, keyword_order, String.le.
  rewrite orb_true_iff, andb_true_iff, Z.ltb_lt, Z.eqb_eq, Is_true_true. done.
Qed.

Lemma by_category_score_keyword_order r1 r2 :
  by_category_score_keyword r1 r2 = true ↔ category_keyword_order r1 r2.
Proof.
  unfold by_category_score_keyword, category_keyword_order.
  rewrite orb_true_iff, andb_true_iff, string_ltb_lt, String.eqb_eq,
    by_score_keyword_order. done.
Qed.

Lemma by_score_keyword_total r1 r2 :
  by_score_keyword r1 r2 = false → by_score_keyword r2 r1 = true.
Proof.
  intros H. apply by_score_keyword_order.
  assert (¬ keyword_order r1 r2) as Hn by (rewrite <- by_score_keyword_order; congruence).
  unfold keyword_order in *.
  destruct (Z.lt_trichotomy (score_value r1) (score_value r2)) as [?|[Heq|?]];
    [by left| |tauto].
  right. split; [done|].
  destruct (total String.le (keyword r1) (keyword r2)); [tauto|done].
Qed.

Lemma by_category_score_keyword_total r1 r2 :
  by_category_score_keyword r1 r2 = false → by_category_score_keyword r2 r1 = true.
Proof.
  intros H. apply by_category_score_keyword_order.
  assert (¬ category_keyword_order r1 r2) as Hn
    by (rewrite <- by_category_score_keyword_order; congruence).
  unfold category_keyword_order in *.
  destruct (decide (category r1 = category r2)) as [Heq|Hne].
  - right. split; [done|]. apply by_score_keyword_order, by_score_keyword_total.
    destruct (by_score_keyword r1 r2) eqn:E; [|done].
    apply by_score_keyword_order in E. tauto.
  - left. split; [done|].
    destruct (total String.le (category r1) (category r2)); [tauto|done].
Qed.

Global Instance keyword_order_trans : Transitive keyword_order.
Proof.
  intros r1 r2 r3. unfold keyword_order.
  intros [H12|[H12 K12]] [H23|[H23 K23]]; [left; lia..|].
  right. split; [lia|]. by etrans.
Qed.

Global Instance category_keyword_order_trans : Transitive category_keyword_order.
Proof.
  intros r1 r2 r3. unfold category_keyword_order.
  intros [[N12 C12]|[E12 K12]] [[N23 C23]|[E23 K23]].
  - left. split; [|by etrans].
    intros Heq. rewrite Heq in C12. apply N23. by apply (anti_symm String.le).
  - left. rewrite <- E23. done.
  - left. rewrite E12. done.
  - right. split; [congruence|by etrans].
Qed.

Lemma StronglySorted_weaken_on {A} (R S : relation A) l :
  (∀ x y, x ∈ l → y ∈ l → R x y → S x y) →
  StronglySorted R l → StronglySorted S l.
Proof.
  intros HRS Hs. induction Hs as [|x l Hs IH Hall]; constructor.
  - apply IH. intros a b Ha Hb. apply HRS; by right.
  - rewrite Forall_forall in *. intros y Hy. apply HRS; [left|by right|by apply Hall].
Qed.

Lemma stable_sort_by_score_keyword rows :
  StronglySorted keyword_order (stable_sort by_score_keyword rows).
Proof.
  apply Sorted_StronglySorted; [apply _|].
  apply (Sorted_weaken (λ a b, by_score_keyword a b = true)).
  - intros x y. apply by_score_keyword_order.
  - apply stable_sort_Sorted, by_score_keyword_total.
Qed.

Lemma stable_sort_by_category_score_keyword rows :
  StronglySorted category_keyword_order (stable_sort by_category_score_keyword rows).
Proof.
  apply Sorted_StronglySorted; [apply _|].
  apply (Sorted_weaken (λ a b, by_category_score_keyword a b = true)).
  - intros x y. apply by_category_score_keyword_order.
  - apply stable_sort_Sorted, by_category_score_keyword_total.
Qed.

(** C8 (as amended).  The full read of the keyword store returns all
    stored keywords ordered by category ascending, then by weight
    descending, then by keyword text ascending; so the keywords of any one
    category appear by weight descending with ties broken by text
    ascending, which is also the order of a read filtered by category. *)
Theorem get_keywords_order (d : DatabaseManager) :
  fault d = None →
  ∃ rows,
    get_keywords d None = Ok rows
    ∧ rows ≡ₚ keywords d
    ∧ StronglySorted category_keyword_order rows
    ∧ (∀ c, StronglySorted keyword_order
              (List.filter (λ r, String.eqb (category r) c) rows))
    ∧ (∀ c, c ≠ ""%string →
         ∃ rows_c,
           get_keywords d (Some c) = Ok rows_c
           ∧ rows_c ≡ₚ List.filter (λ r, String.eqb (category r) c) (keywords d)
           ∧ StronglySorted keyword_order rows_c).
Proof.
  intros Hfault. unfold get_keywords, except_sqlite, execute. rewrite Hfault.
  eexists. split; [reflexivity|]. cbn [select_keywords].
  split; [apply stable_sort_perm|].
  split; [apply stable_sort_by_category_score_keyword|].
  split.
  - intros c.
    apply (StronglySorted_weaken_on category_keyword_order).
    + intros x y Hx Hy [[Hne _]|[_ Hk]]; [|done].
      apply list_elem_of_In, List.filter_In in Hx as [_ Hx].
      apply list_elem_of_In, List.filter_In in Hy as [_ Hy].
      apply String.eqb_eq in Hx, Hy. congruence.
    + apply StronglySorted_list_filter, stable_sort_by_category_score_keyword.
  - intros c Hc. destruct c as [|a c]; [done|].
    eexists. split; [reflexivity|]. cbn [select_keywords].
    split; [apply stable_sort_perm|apply stable_sort_by_score_keyword].
Qed.

End KeywordOrder.

Lemma get_keywords_order_witness :
  ∃ rows,
    get_keywords sample_db None = Ok rows
    ∧ StronglySorted category_keyword_order rows.
Proof.
  destruct (get_keywords_order sample_db) as (rows & Hget & _ & Hsorted & _).
  - reflexivity.
  - by exists rows.
Defined.

(** C8, the claim as stated fails: the full read puts the category
    first, so a weight 3 precedes a weight 10. *)
Lemma get_keywords_order_counterexample :
  get_keywords sample_db None
  = Ok [("safety", "general", 5); ("lumber", "low_value", 3);
        ("router", "tools", 10); ("table saw", "tools", 8)]%string
  ∧ ¬ Sorted keyword_order
        [("safety", "general", 5); ("lumber", "low_value", 3);
         ("router", "tools", 10); ("table saw", "tools", 8)]%string.
Proof.
  split; [reflexivity|].
  intros Hs. apply Sorted_inv in Hs as [Hs _].
  apply Sorted_inv in Hs as [_ Hhd]. apply HdRel_inv in Hhd.
  destruct Hhd as [Hlt|[Heq _]]; cbn in *; lia.
Qed.

(** * Further properties *)

(** ** Text of ASCII characters *)

Lemma ascii_lower_char_idemp c :
  AsciiText.lower_char (AsciiText.lower_char c) = AsciiText.lower_char c.
Proof. by destruct c as [[] [] [] [] [] [] [] []]. Qed.

Lemma ascii_chars_lower s :
  list_ascii_of_string (AsciiText.lower s) = AsciiText.lower_char <$> list_ascii_of_string s.
Proof. unfold AsciiText.lower. apply list_ascii_of_string_of_list_ascii. Qed.

Lemma ascii_chars_inj s1 s2 :
  list_ascii_of_string s1 = list_ascii_of_string s2 → s1 = s2.
Proof.
  intros H.
  rewrite <- (string_of_list_ascii_of_string s1), <- (string_of_list_ascii_of_string s2).
  by rewrite H.
Qed.

Lemma ascii_lower_idemp s : AsciiText.lower (AsciiText.lower s) = AsciiText.lower s.
Proof.
  apply ascii_chars_inj. rewrite !ascii_chars_lower, <- list_fmap_compose.
  apply list_fmap_ext. intros _ c _. apply ascii_lower_char_idemp.
Qed.

Lemma ascii_lower_empty s : AsciiText.lower s = ""%string ↔ s = ""%string.
Proof.
  split; [|by intros ->]. intros H. apply ascii_chars_inj.
  apply (f_equal list_ascii_of_string) in H. rewrite ascii_chars_lower in H.
  by apply fmap_nil_inv in H.
Qed.

(** ** [Post.preview_content] *)

Section Preview.
Context `{Unicode : !Regex.Text}.

(** X1.  A preview is never longer than 250 characters: a content of at
    most 250 characters is its own preview, a longer one is cut to its
    first 247 characters followed by the three characters of ["..."],
    250 characters in all. *)
Theorem preview_content_bounds (p : Post) :
  length (Regex.chars "...") = 3%nat →
  (length (preview_content p) ≤ 250)%nat
  ∧ ((length (Regex.chars (content p)) ≤ 250)%nat →
     preview_content p = Regex.chars (content p))
  ∧ ((250 < length (Regex.chars (content p)))%nat →
     length (preview_content p) = 250%nat
     ∧ preview_content p = take 247 (Regex.chars (content p)) ++ Regex.chars "...").
Proof.
  intros Hdots. unfold preview_content.
  destruct (Nat.leb_spec (length (Regex.chars (content p))) 250) as [Hshort|Hlong].
  - split; [done|]. split; [done|lia].
  - assert (Hlen : length (take 247 (Regex.chars (content p)) ++ Regex.chars "...")
                   = 250%nat).
    { rewrite length_app, length_take, Hdots. lia. }
    split; [lia|]. split; [lia|done].
Qed.

End Preview.

Lemma preview_content_bounds_witness :
  (length (preview_content
             (sample_post "p1" "Table saw safety tips"
                "A long story about a table saw, a router and a pile of lumber."
                sample_now false)) ≤ 250)%nat.
Proof.
  destruct (preview_content_bounds
              (sample_post "p1" "Table saw safety tips"
                 "A long story about a table saw, a router and a pile of lumber."
                 sample_now false)) as [Hlength _]; [reflexivity|exact Hlength].
Defined.

(** ** [Platform] values *)

Section PlatformValues.
Context `{Unicode : !Regex.Text}.

Lemma Platform_of_value_value p : Platform_of_value (value p) = Ok p.
Proof. by destruct p. Qed.

Lemma Platform_of_value_inv s p : Platform_of_value s = Ok p → s = value p.
Proof.
  unfold Platform_of_value.
  destruct (String.eqb_spec s "reddit") as [->|?]; [by intros [= <-]|].
  destruct (String.eqb_spec s "lumberjocks") as [->|?]; [by intros [= <-]|].
  destruct (String.eqb_spec s "sawmillcreek") as [->|?]; [by intros [= <-]|].
  destruct (String.eqb_spec s "facebook") as [->|?]; [by intros [= <-]|]. done.
Qed.

End PlatformValues.

(** X2.  [Platform(p.value)] is [p]; [Platform(s)] succeeds only for the
    value of a member, so two members never share a value. *)
Theorem Platform_value_round_trip :
  (∀ p, Platform_of_value (value p) = Ok p)
  ∧ (∀ s p, Platform_of_value s = Ok p → s = value p)
  ∧ (∀ p q, value p = value q → p = q).
Proof.
  split; [apply Platform_of_value_value|]. split; [apply Platform_of_value_inv|].
  intros p q Heq. pose proof (Platform_of_value_value p) as Hp.
  rewrite Heq, Platform_of_value_value in Hp. congruence.
Qed.

(** ** [Post.to_dict] and [Post.from_dict] *)

Section DictionaryRoundTrip.
Context `{Unicode : !Regex.Text}.

(** X3.  Reading back the dictionary of a post gives the post, provided
    [fromisoformat] reads what [isoformat] writes for its timestamp. *)
Theorem from_dict_to_dict isoformat fromisoformat now (p : Post) :
  fromisoformat (isoformat (timestamp p)) = Some (timestamp p) →
  from_dict fromisoformat (to_dict isoformat now p) = Ok p.
Proof.
  intros Hiso. unfold from_dict, to_dict. cbn.
  rewrite Platform_of_value_value. cbn.
  rewrite Hiso. cbn. by destruct p.
Qed.

End DictionaryRoundTrip.

Lemma from_dict_to_dict_witness :
  from_dict (λ _, Some sample_now)
    (to_dict (λ _, "2024-04-27T00:00:00"%string) sample_now
       (sample_post "p1" "Table saw safety tips" "..." sample_now false))
  = Ok (sample_post "p1" "Table saw safety tips" "..." sample_now false).
Proof. apply from_dict_to_dict. reflexivity. Defined.

Section DictionaryKeysAndAdding.
Context `{Unicode : !Regex.Text}.

(** X4.  [from_dict] returns a post exactly when the seven required keys
    are present, the platform is the value of a member and the timestamp
    can be read; an absent [score], [keyword_matches] or
    [has_external_links] is replaced by 0, the empty list and [False]. *)
Theorem from_dict_spec fromisoformat (data : PostDict) (p : Post) :
  from_dict fromisoformat data = Ok p
  ↔ d_platform data = Some (value (platform p))
    ∧ d_post_id data = Some (post_id p)
    ∧ d_title data = Some (title p)
    ∧ d_content data = Some (content p)
    ∧ d_author data = Some (author p)
    ∧ d_url data = Some (url p)
    ∧ (∃ text, d_timestamp data = Some text ∧ fromisoformat text = Some (timestamp p))
    ∧ score p = default 0 (d_score data)
    ∧ keyword_matches p = default [] (d_keyword_matches data)
    ∧ has_external_links p = default false (d_has_external_links data).
Proof.
  pose proof Platform_of_value_value as Hround.
  pose proof Platform_of_value_inv as Hvalue.
  unfold from_dict. split.
  - destruct (d_platform data) as [pv|]; [|done]. cbn [getitem rbind].
    destruct (Platform_of_value pv) as [pl|] eqn:Hpl; [|done]. cbn [rbind].
    apply Hvalue in Hpl as ->.
    destruct (d_post_id data); [|done]. destruct (d_title data); [|done].
    destruct (d_content data); [|done]. destruct (d_author data); [|done].
    destruct (d_url data); [|done]. destruct (d_timestamp data) as [text|]; [|done].
    cbn [getitem rbind]. destruct (fromisoformat text) as [t|] eqn:Ht; [|done].
    cbn [getitem rbind]. intros [= <-]. cbn. repeat split; try done. by exists text.
  - intros (-> & -> & -> & -> & -> & -> & (text & -> & Ht) & Hs & Hk & Hl).
    cbn [getitem rbind]. rewrite Hround. cbn [rbind]. rewrite Ht. cbn [getitem rbind].
    rewrite <- Hs, <- Hk, <- Hl. by destruct p.
Qed.

(** ** Writing and removing keywords *)

Lemma elem_of_insert_or_replace r row rows :
  r ∈ insert_or_replace row rows ↔ r = row ∨ (r ∈ rows ∧ keyword r ≠ keyword row).
Proof.
  unfold insert_or_replace.
  rewrite elem_of_app, list_elem_of_singleton, list_elem_of_In, List.filter_In,
    <- list_elem_of_In, negb_true_iff, String.eqb_neq. tauto.
Qed.

Lemma list_filter_fmap_NoDup {A B} (f : A → B) (P : A → bool) l :
  NoDup (f <$> l) → NoDup (f <$> List.filter P l).
Proof.
  induction l as [|x l IH]; [done|]. rewrite fmap_cons, NoDup_cons. intros [Hx Hnd].
  cbn [List.filter]. destruct (P x); [|by apply IH].
  rewrite fmap_cons, NoDup_cons. split; [|by apply IH].
  intros Hin. apply Hx. apply list_elem_of_fmap in Hin as (y & -> & Hy).
  apply list_elem_of_fmap. exists y. split; [done|].
  by apply list_elem_of_In, List.filter_In in Hy as [Hy _]; apply list_elem_of_In.
Qed.

Lemma insert_or_replace_NoDup row rows :
  NoDup (keyword <$> rows) → NoDup (keyword <$> insert_or_replace row rows).
Proof.
  intros Hnd. unfold insert_or_replace. rewrite fmap_app. apply NoDup_app.
  split; [by apply list_filter_fmap_NoDup|]. split; [|apply NoDup_singleton].
  intros k Hk Hrow. apply list_elem_of_singleton in Hrow as ->.
  apply list_elem_of_fmap in Hk as (r & Heq & Hr).
  apply list_elem_of_In, List.filter_In in Hr as [_ Hr].
  apply negb_true_iff, String.eqb_neq in Hr. congruence.
Qed.

Lemma insert_or_replace_ok row (d : DatabaseManager) :
  Regex.lower (keyword row) = keyword row →
  keyword_table_ok d → keyword_table_ok (with_keywords d (insert_or_replace row (keywords d))).
Proof.
  intros Hrow [Hnd Hlow]. split; cbn.
  - by apply insert_or_replace_NoDup.
  - rewrite Forall_forall in *. intros r Hr.
    apply elem_of_insert_or_replace in Hr as [->|[Hr _]]; auto.
Qed.

Lemma with_keywords_id (d : DatabaseManager) : with_keywords d (keywords d) = d.
Proof. by destruct d. Qed.

Lemma add_keyword_inv d kw cat v flag d' :
  add_keyword d kw cat v = Ok (flag, d') →
  (flag = false ∧ d' = d ∧ fault d = Some SqliteError)
  ∨ (flag = true ∧ fault d = None
     ∧ d' = with_keywords d (insert_or_replace (Regex.lower kw, cat, v) (keywords d))).
Proof.
  unfold add_keyword, execute, except_sqlite.
  destruct (fault d) as [[]|] eqn:Hfault; cbn [rbind]; try done.
  - intros [= <- <-]. by left.
  - destruct (fits_sqlite_integer v); [|done]. intros [= <- <-]. by right.
Qed.

(** X5.  When [add_keyword] returns [True] the table holds the keyword in
    lower case with the given category and weight, no other row has that
    keyword text, every row with another keyword text is kept, and the
    full read returns exactly the rows of the table; when it returns
    [False] the database failed with an [sqlite3.Error] and is unchanged. *)
Theorem add_keyword_stored d kw cat v flag d' :
  add_keyword d kw cat v = Ok (flag, d') →
  (flag = false ∧ d' = d ∧ fault d = Some SqliteError)
  ∨ (flag = true
     ∧ (∀ r, r ∈ keywords d'
             ↔ r = (Regex.lower kw, cat, v)
               ∨ (r ∈ keywords d ∧ keyword r ≠ Regex.lower kw))
     ∧ posts d' = posts d
     ∧ ∃ rows, get_keywords d' None = Ok rows ∧ ∀ r, r ∈ rows ↔ r ∈ keywords d').
Proof.
  intros Hadd. apply add_keyword_inv in Hadd as [?|(-> & Hfault & ->)]; [by left|].
  right. split; [done|]. split; [|split; [done|]].
  - intros r. cbn. apply elem_of_insert_or_replace.
  - unfold get_keywords, except_sqlite, execute, with_keywords. cbn [fault].
    rewrite Hfault. eexists. split; [reflexivity|]. intros r.
    unfold select_keywords. cbn [keywords]. by rewrite stable_sort_perm.
Qed.

End DictionaryKeysAndAdding.

Lemma add_keyword_stored_witness :
  ∃ d', add_keyword sample_db "Band Saw" "tools" 7 = Ok (true, d')
        ∧ ("band saw", "tools", 7)%string ∈ keywords d'.
Proof.
  eexists. split; [reflexivity|].
  destruct (add_keyword_stored sample_db "Band Saw" "tools" 7 true
              (with_keywords sample_db
                 (insert_or_replace ("band saw", "tools", 7)%string sample_keywords)))
    as [(? & _)|(_ & Hrows & _)]; [reflexivity|done|].
  apply Hrows. by left.
Defined.

(** An integer beyond 64 bits is refused with [OverflowError], which
    [add_keyword] does not catch. *)
Example add_keyword_overflow :
  add_keyword sample_db "planer" "tools" (2 ^ 63) = Raise OverflowError.
Proof. reflexivity. Qed.

Section RemovingKeywords.
Context `{Unicode : !Regex.Text}.

Lemma remove_keyword_inv d kw flag d' :
  remove_keyword d kw = Ok (flag, d') →
  (flag = false ∧ d' = d ∧ fault d = Some SqliteError)
  ∨ (fault d = None
     ∧ flag = existsb (λ r, String.eqb (keyword r) (Regex.lower kw)) (keywords d)
     ∧ d' = with_keywords d
              (List.filter (λ r, negb (String.eqb (keyword r) (Regex.lower kw)))
                 (keywords d))).
Proof.
  unfold remove_keyword, execute, except_sqlite.
  destruct (fault d) as [[]|] eqn:Hfault; try done.
  - intros [= <- <-]. by left.
  - intros [= <- <-]. by right.
Qed.

(** X6.  On a database that answers, [remove_keyword] returns [True]
    exactly when a row with the lower-cased keyword existed; afterwards no
    row has that keyword text and the other rows are kept in their order.
    After an [sqlite3.Error] it returns [False] and nothing changes. *)
Theorem remove_keyword_spec d kw flag d' :
  remove_keyword d kw = Ok (flag, d') →
  (flag = false ∧ d' = d ∧ fault d = Some SqliteError)
  ∨ (fault d = None
     ∧ (flag = true ↔ Regex.lower kw ∈ (keyword <$> keywords d))
     ∧ (Regex.lower kw ∉ keyword <$> keywords d')
     ∧ (keywords d' `sublist_of` keywords d)
     ∧ ∀ r, keyword r ≠ Regex.lower kw → (r ∈ keywords d' ↔ r ∈ keywords d)).
Proof.
  intros Hrm. apply remove_keyword_inv in Hrm as [?|(Hfault & -> & ->)]; [by left|].
  right. split; [done|]. cbn. split; [split|split; [|split]].
  - intros Hex. apply existsb_exists in Hex as (r & Hr & Heq).
    apply String.eqb_eq in Heq. apply list_elem_of_fmap. exists r.
    split; [done|by apply list_elem_of_In].
  - intros Hin. apply list_elem_of_fmap in Hin as (r & Heq & Hr).
    apply existsb_exists. exists r. split; [by apply list_elem_of_In|].
    by apply String.eqb_eq.
  - intros Hin. apply list_elem_of_fmap in Hin as (r & Heq & Hr).
    apply list_elem_of_In, List.filter_In in Hr as [_ Hr].
    apply negb_true_iff, String.eqb_neq in Hr. congruence.
  - induction (keywords d) as [|r rows IH]; [done|]. cbn [List.filter].
    destruct (negb _); [by apply sublist_skip|by apply sublist_cons].
  - intros r Hne. rewrite list_elem_of_In, List.filter_In, <- list_elem_of_In,
      negb_true_iff, String.eqb_neq. tauto.
Qed.

End RemovingKeywords.

Lemma remove_keyword_spec_witness :
  ∃ d', remove_keyword sample_db "ROUTER" = Ok (true, d')
        ∧ "router"%string ∉ keyword <$> keywords d'.
Proof.
  eexists. split; [reflexivity|].
  destruct (remove_keyword_spec sample_db "ROUTER" true
              (with_keywords sample_db
                 (List.filter (λ r, negb (String.eqb (keyword r) "router")) sample_keywords)))
    as [(? & _)|(_ & _ & Hgone & _)]; [reflexivity|done|exact Hgone].
Defined.

Section AddingThenRemoving.
Context `{Unicode : !Regex.Text}.

Lemma list_filter_id {A} (P : A → bool) l :
  (∀ x, x ∈ l → P x = true) → List.filter P l = l.
Proof.
  induction l as [|x l IH]; intros H; [done|]. cbn.
  rewrite (H x) by left. f_equal. apply IH. intros y Hy. apply H. by right.
Qed.

(** X7.  Adding a keyword whose lower-cased text is not in the table and
    removing it again gives back the database as it was. *)
Theorem add_then_remove_keyword d kw cat v d1 :
  Regex.lower kw ∉ keyword <$> keywords d →
  add_keyword d kw cat v = Ok (true, d1) →
  remove_keyword d1 kw = Ok (true, d).
Proof.
  intros Hfresh Hadd.
  apply add_keyword_inv in Hadd as [(? & _)|(_ & Hfault & ->)]; [done|].
  destruct d as [f rows ps]. cbn in Hfault, Hfresh. subst f.
  assert (Hkeep : List.filter (λ r, negb (String.eqb (keyword r) (Regex.lower kw))) rows
                  = rows).
  { apply list_filter_id. intros r Hr. apply negb_true_iff, String.eqb_neq.
    intros Heq. apply Hfresh. rewrite <- Heq. apply list_elem_of_fmap. by exists r. }
  unfold remove_keyword, execute, except_sqlite, with_keywords, insert_or_replace.
  cbn [fault keywords posts keyword fst].
  rewrite Hkeep, existsb_app, List.filter_app, Hkeep. cbn.
  rewrite String.eqb_refl, orb_true_r. cbn. by rewrite app_nil_r.
Qed.

End AddingThenRemoving.

Lemma add_then_remove_keyword_witness :
  ∃ d1, add_keyword sample_db "Band Saw" "tools" 7 = Ok (true, d1)
        ∧ remove_keyword d1 "Band Saw" = Ok (true, sample_db).
Proof.
  eexists. split; [reflexivity|].
  apply (add_then_remove_keyword sample_db "Band Saw" "tools" 7).
  - apply (bool_decide_unpack _). vm_compute. exact I.
  - reflexivity.
Defined.

(** ** Bulk import *)

Section BulkImport.
Context `{Unicode : !Regex.Text}.

Lemma import_keyword_list_spec cat score keyword_list : ∀ n rows,
  import_keyword_list cat score keyword_list n rows
  = (n + Z.of_nat (length keyword_list),
     foldl (λ acc row, insert_or_replace row acc) rows
       ((λ kw, (Regex.lower kw, cat, score)) <$> keyword_list)).
Proof.
  induction keyword_list as [|kw rest IH]; intros n rows; cbn [import_keyword_list].
  - cbn. f_equal. lia.
  - rewrite IH. cbn [fmap list_fmap foldl length]. f_equal.
    rewrite Nat2Z.inj_succ. lia.
Qed.

Lemma import_categories_spec keywords_dict : ∀ n rows,
  import_categories keywords_dict n rows
  = (n + Z.of_nat (length (import_rows keywords_dict)),
     foldl (λ acc row, insert_or_replace row acc) rows (import_rows keywords_dict)).
Proof.
  unfold import_rows.
  induction keywords_dict as [|[cat kws] rest IH]; intros n rows; cbn [import_categories].
  - cbn. f_equal. lia.
  - rewrite import_keyword_list_spec, IH. cbn [fmap list_fmap mjoin list_join fst snd].
    rewrite foldl_app, length_app, length_fmap, Nat2Z.inj_add. f_equal.
    symmetry. apply Z.add_assoc.
Qed.

Lemma last_with_its_keyword_cons r row rows :
  last_with_its_keyword r (row :: rows)
  ↔ last_with_its_keyword r rows ∨ (r = row ∧ keyword r ∉ keyword <$> rows).
Proof.
  unfold last_with_its_keyword. split.
  - intros ([|b before] & after & Heq & Hlast); simplify_eq/=; [by right|].
    left. by exists before, after.
  - intros [(before & after & -> & Hlast)|[-> Hlast]].
    + by exists (row :: before), after.
    + by exists [], rows.
Qed.

Lemma elem_of_foldl_insert_or_replace r news : ∀ rows,
  r ∈ foldl (λ acc row, insert_or_replace row acc) rows news
  ↔ last_with_its_keyword r news ∨ (r ∈ rows ∧ keyword r ∉ keyword <$> news).
Proof.
  induction news as [|row news IH]; intros rows.
  - cbn. split; [intros ?; right; split; [done|apply not_elem_of_nil]|].
    intros [([|??] & ? & ? & _)|[? _]]; by simplify_eq/=.
  - cbn [foldl]. rewrite IH, last_with_its_keyword_cons, elem_of_insert_or_replace,
      fmap_cons, not_elem_of_cons.
    split.
    + intros [?|[[->|[??]] ?]]; [by left; left|by left; right|by right].
    + intros [[?|[-> ?]]|[? [??]]]; [by left|right; split; [by left|done]|].
      right. split; [by right|done].
Qed.

Lemma foldl_insert_or_replace_ok news : ∀ d rows,
  Forall (λ r, Regex.lower (keyword r) = keyword r) news →
  keyword_table_ok (with_keywords d rows) →
  keyword_table_ok
    (with_keywords d (foldl (λ acc row, insert_or_replace row acc) rows news)).
Proof.
  induction news as [|row news IH]; intros d rows Hlow Hok; [done|].
  apply Forall_cons in Hlow as [Hrow Hlow]. cbn [foldl]. apply IH; [done|].
  by apply (insert_or_replace_ok row (with_keywords d rows)).
Qed.

Lemma import_rows_elem r keywords_dict :
  r ∈ import_rows keywords_dict
  ↔ ∃ kws kw, (category r, kws) ∈ keywords_dict ∧ kw ∈ kws
              ∧ keyword r = Regex.lower kw
              ∧ score_value r = category_score (category r).
Proof.
  unfold import_rows. rewrite list_elem_of_join. split.
  - intros (l & Hr & Hl). apply list_elem_of_fmap in Hl as ([cat kws] & -> & Hitem).
    apply list_elem_of_fmap in Hr as (kw & -> & Hkw). by exists kws, kw.
  - intros (kws & kw & Hitem & Hkw & Hk & Hs).
    exists ((λ kw, (Regex.lower kw, category r, category_score (category r))) <$> kws).
    split.
    + apply list_elem_of_fmap. exists kw. split; [|done].
      destruct r as [[k c] v]. cbn in *. by subst.
    + apply list_elem_of_fmap. by exists (category r, kws).
Qed.

Lemma import_rows_lower keywords_dict :
  (∀ s, Regex.lower (Regex.lower s) = Regex.lower s) →
  Forall (λ r, Regex.lower (keyword r) = keyword r) (import_rows keywords_dict).
Proof.
  intros Hidemp. apply Forall_forall. intros r Hr.
  apply import_rows_elem in Hr as (kws & kw & _ & _ & -> & _). apply Hidemp.
Qed.

Lemma bulk_import_keywords_inv d keywords_dict n d' :
  bulk_import_keywords d keywords_dict = Ok (n, d') →
  (n = 0 ∧ d' = d ∧ fault d = Some SqliteError)
  ∨ (fault d = None
     ∧ n = Z.of_nat (length (import_rows keywords_dict))
     ∧ d' = with_keywords d
              (foldl (λ acc row, insert_or_replace row acc) (keywords d)
                 (import_rows keywords_dict))).
Proof.
  unfold bulk_import_keywords, execute, except_sqlite.
  destruct (fault d) as [[]|] eqn:Hfault; try done.
  - intros [= <- <-]. by left.
  - rewrite import_categories_spec. intros [= <- <-]. right. split; [done|].
    split; [lia|done].
Qed.

(** X8.  The keyword table stays well formed: if its keyword texts are
    pairwise different and in lower case (left alone by [str.lower]),
    they are so after [add_keyword], after [remove_keyword] and after
    [bulk_import_keywords], whatever these return; [str.lower] is taken
    to leave a lower-cased text alone. *)
Theorem keyword_table_invariant (d : DatabaseManager) :
  (∀ s, Regex.lower (Regex.lower s) = Regex.lower s) →
  keyword_table_ok d →
  (∀ kw cat v flag d', add_keyword d kw cat v = Ok (flag, d') → keyword_table_ok d')
  ∧ (∀ kw flag d', remove_keyword d kw = Ok (flag, d') → keyword_table_ok d')
  ∧ (∀ keywords_dict n d',
       bulk_import_keywords d keywords_dict = Ok (n, d') → keyword_table_ok d').
Proof.
  intros Hidemp Hok. split; [|split].
  - intros kw cat v flag d' Hadd.
    apply add_keyword_inv in Hadd as [(_ & -> & _)|(_ & _ & ->)]; [apply Hok|].
    apply insert_or_replace_ok; [apply Hidemp|done].
  - intros kw flag d' Hremove.
    apply remove_keyword_inv in Hremove as [(_ & -> & _)|(_ & _ & ->)]; [apply Hok|].
    destruct Hok as [Hnodup Hlow]. split; cbn.
    + by apply list_filter_fmap_NoDup.
    + rewrite Forall_forall in *. intros r Hr.
      apply Hlow. by apply list_elem_of_In, List.filter_In in Hr as [Hr _]; apply list_elem_of_In.
  - intros keywords_dict n d' Himport.
    apply bulk_import_keywords_inv in Himport as [(_ & -> & _)|(_ & _ & ->)]; [apply Hok|].
    apply foldl_insert_or_replace_ok; [by apply import_rows_lower|].
    by rewrite with_keywords_id.
Qed.

End BulkImport.

Lemma keyword_table_invariant_witness :
  ∃ n d', initialize_default_keywords sample_db = Ok (n, d') ∧ keyword_table_ok d'.
Proof.
  destruct (keyword_table_invariant sample_db) as (_ & _ & Hbulk).
  - apply ascii_lower_idemp.
  - split; [apply (bool_decide_unpack _); vm_compute; exact I|].
    repeat constructor.
  - eexists _, _. split; [vm_compute; reflexivity|].
    apply (Hbulk default_keywords 33). vm_compute. reflexivity.
Defined.

Section BulkImportResult.
Context `{Unicode : !Regex.Text}.

(** X9.  On a database that answers, [bulk_import_keywords] returns the
    number of keywords listed in the dictionary, repeats included; the
    table then holds, for every listed keyword, the row written last for
    its lower-cased text, with the weight of its category (8, 5, 3, or 5
    for any other category), and keeps the rows of keywords that are not
    listed.  After an [sqlite3.Error] it returns 0 and changes nothing. *)
Theorem bulk_import_keywords_spec d keywords_dict :
  (fault d = Some SqliteError → bulk_import_keywords d keywords_dict = Ok (0, d))
  ∧ (fault d = None →
     ∃ d',
       bulk_import_keywords d keywords_dict
       = Ok (Z.of_nat (length (import_rows keywords_dict)), d')
       ∧ posts d' = posts d
       ∧ ∀ r, r ∈ keywords d'
              ↔ last_with_its_keyword r (import_rows keywords_dict)
                ∨ (r ∈ keywords d ∧ keyword r ∉ keyword <$> import_rows keywords_dict))
  ∧ length (import_rows keywords_dict)
    = sum_list (length ∘ snd <$> keywords_dict)
  ∧ (∀ r, r ∈ import_rows keywords_dict
          ↔ ∃ kws kw, (category r, kws) ∈ keywords_dict ∧ kw ∈ kws
                      ∧ keyword r = Regex.lower kw
                      ∧ score_value r = category_score (category r)).
Proof.
  split; [|split; [|split]].
  - intros Hfault. unfold bulk_import_keywords, execute, except_sqlite. by rewrite Hfault.
  - intros Hfault. unfold bulk_import_keywords, execute, except_sqlite. rewrite Hfault.
    rewrite import_categories_spec. eexists. split; [f_equal; f_equal; lia|].
    split; [done|]. intros r. cbn. apply elem_of_foldl_insert_or_replace.
  - unfold import_rows. induction keywords_dict as [|[cat kws] rest IH]; [done|].
    cbn. rewrite length_app, length_fmap, <- IH. done.
  - intros r. apply import_rows_elem.
Qed.

End BulkImportResult.

(** The count can exceed the number of rows written: a keyword listed
    twice is counted twice and stored once. *)
Example bulk_import_counts_repeats :
  ∃ d', bulk_import_keywords {| fault := None; keywords := []; posts := ∅ |}
          [("high_value", ["Router"; "router"]); ("shop", ["ROUTER"])]%string
        = Ok (3, d')
        ∧ keywords d' = [("router", "shop", 5)]%string.
Proof. eexists. split; reflexivity. Qed.

(** ** Reading keywords *)

Section ReadingKeywords.
Context `{Unicode : !Regex.Text}.

Lemma list_filter_Permutation {A} (P : A → bool) l1 l2 :
  l1 ≡ₚ l2 → List.filter P l1 ≡ₚ List.filter P l2.
Proof.
  induction 1 as [|x l1 l2 _ IH|x y l|l1 l2 l3 _ IH1 _ IH2]; cbn.
  - done.
  - destruct (P x); by rewrite IH.
  - destruct (P x), (P y); try done. apply perm_swap.
  - by etrans.
Qed.

Lemma category_keyword_order_antisym r1 r2 :
  category_keyword_order r1 r2 → category_keyword_order r2 r1 → r1 = r2.
Proof.
  destruct r1 as [[k1 c1] v1], r2 as [[k2 c2] v2].
  unfold category_keyword_order, keyword_order. cbn.
  intros [[Hne H12]|[-> K12]] [[Hne' H21]|[Heq K21]]; try congruence.
  - exfalso. apply Hne. by apply (anti_symm String.le).
  - destruct K12 as [?|[? L12]], K21 as [?|[? L21]]; try lia.
    subst. f_equal. f_equal. by apply (anti_symm String.le).
Qed.

Lemma keyword_order_antisym r1 r2 :
  category r1 = category r2 → keyword_order r1 r2 → keyword_order r2 r1 → r1 = r2.
Proof.
  destruct r1 as [[k1 c1] v1], r2 as [[k2 c2] v2].
  unfold keyword_order. cbn. intros ->.
  intros [?|[? L12]] [?|[? L21]]; try lia.
  subst. f_equal. f_equal. by apply (anti_symm String.le).
Qed.

Lemma select_keywords_Permutation cat d1 d2 :
  keywords d1 ≡ₚ keywords d2 → select_keywords cat d1 = select_keywords cat d2.
Proof.
  intros Hperm. unfold select_keywords.
  assert (Hfull : stable_sort by_category_score_keyword (keywords d1)
                  = stable_sort by_category_score_keyword (keywords d2)).
  { apply (StronglySorted_unique_strong category_keyword_order).
    - intros x y _ _. apply category_keyword_order_antisym.
    - apply stable_sort_by_category_score_keyword.
    - apply stable_sort_by_category_score_keyword.
    - by rewrite !stable_sort_perm. }
  destruct cat as [[|a c]|]; [done| |done].
  apply (StronglySorted_unique_strong keyword_order).
  - intros x y Hx Hy. apply keyword_order_antisym.
    rewrite stable_sort_perm in Hx, Hy.
    apply list_elem_of_In, List.filter_In in Hx as [_ Hx].
    apply list_elem_of_In, List.filter_In in Hy as [_ Hy].
    apply String.eqb_eq in Hx, Hy. congruence.
  - apply stable_sort_by_score_keyword.
  - apply stable_sort_by_score_keyword.
  - rewrite !stable_sort_perm. by apply list_filter_Permutation.
Qed.

(** X10.  What [get_keywords] returns depends on the rows of the table
    only, not on the order in which they were written: two tables with
    the same rows give the same list, with or without a category. *)
Theorem get_keywords_insertion_order d1 d2 cat :
  fault d1 = fault d2 →
  keywords d1 ≡ₚ keywords d2 →
  get_keywords d1 cat = get_keywords d2 cat.
Proof.
  intros Hfault Hperm. unfold get_keywords, execute. rewrite Hfault.
  destruct (fault d2); [done|]. by rewrite (select_keywords_Permutation cat d1 d2).
Qed.

End ReadingKeywords.

Lemma get_keywords_insertion_order_witness :
  get_keywords sample_db None
  = get_keywords
      {| fault := None;
         keywords := [("lumber", "low_value", 3); ("router", "tools", 10);
                      ("safety", "general", 5); ("table saw", "tools", 8)]%string;
         posts := ∅ |} None.
Proof.
  apply get_keywords_insertion_order; [reflexivity|].
  apply (bool_decide_unpack _). vm_compute. exact I.
Defined.

(** ** [KeywordManager.get_keyword_dict] *)

Section KeywordDictionary.
Context `{Unicode : !Regex.Text}.

Lemma keyword_dict_loop_lookup rows c : ∀ res,
  keyword_dict_loop rows res !! c
  = match List.filter (λ r, String.eqb (category r) c) rows with
    | [] => res !! c
    | l => Some (default [] (res !! c) ++ (keyword <$> l))
    end.
Proof.
  induction rows as [|[[kw cat] v] rows IH]; intros res; [done|].
  cbn [keyword_dict_loop List.filter]. rewrite IH.
  change (category (kw, cat, v)) with cat.
  set (res' := match res !! cat with None => <[cat:=[]]> res | Some _ => res end).
  assert (Hcat : res' !! cat = Some (default [] (res !! cat))).
  { subst res'. destruct (res !! cat) eqn:E; [done|]. by rewrite lookup_insert_eq. }
  assert (Hother : ∀ c', c' ≠ cat → res' !! c' = res !! c').
  { intros c' Hne. subst res'. destruct (res !! cat); [done|]. by rewrite lookup_insert_ne. }
  destruct (String.eqb_spec cat c) as [->|Hne].
  - rewrite lookup_insert_eq, Hcat. cbn [default].
    destruct (List.filter _ rows); cbn; [done|].
    by rewrite <- app_assoc.
  - rewrite lookup_insert_ne by done. rewrite Hother by done. done.
Qed.

(** X11.  [get_keyword_dict] maps every category that has a keyword to
    the keywords of that category, in the order of the full read, and has
    no entry for any other category; so every keyword read is listed
    under its category. *)
Theorem get_keyword_dict_groups d (m : gmap string (list string)) :
  get_keyword_dict d = Ok m →
  ∃ rows,
    get_keywords d None = Ok rows
    ∧ (∀ c, m !! c
            = match List.filter (λ r, String.eqb (category r) c) rows with
              | [] => None
              | l => Some (keyword <$> l)
              end)
    ∧ (∀ r, r ∈ rows → ∃ l, m !! category r = Some l ∧ keyword r ∈ l).
Proof.
  unfold get_keyword_dict.
  destruct (get_keywords d None) as [rows|e]; [|done]. cbn [rbind]. intros [= <-].
  exists rows. split; [done|].
  assert (Hlookup : ∀ c, keyword_dict_loop rows ∅ !! c
            = match List.filter (λ r, String.eqb (category r) c) rows with
              | [] => None
              | l => Some (keyword <$> l)
              end).
  { intros c. rewrite keyword_dict_loop_lookup, lookup_empty. done. }
  split; [done|]. intros r Hr. rewrite Hlookup.
  assert (Hin : r ∈ List.filter (λ r0, String.eqb (category r0) (category r)) rows).
  { apply list_elem_of_In, List.filter_In. split; [by apply list_elem_of_In|].
    apply String.eqb_refl. }
  destruct (List.filter _ rows) as [|r0 l] eqn:E; [by apply elem_of_nil in Hin|].
  eexists. split; [done|]. apply list_elem_of_fmap. by exists r.
Qed.

End KeywordDictionary.

Lemma get_keyword_dict_groups_witness :
  ∃ m, get_keyword_dict sample_db = Ok m
       ∧ m !! "tools"%string = Some ["router"; "table saw"]%string.
Proof.
  eexists. split; [reflexivity|].
  edestruct (get_keyword_dict_groups sample_db) as (rows & Hread & Hlookup & _).
  - reflexivity.
  - rewrite Hlookup. injection Hread as <-. reflexivity.
Defined.

(** ** [KeywordManager.search_keywords] *)

Section SearchingKeywords.
Context `{Unicode : !Regex.Text}.

Lemma search_loop_filter text_lower rows :
  search_loop text_lower rows = List.filter (λ r, contains text_lower (keyword r)) rows.
Proof.
  induction rows as [|[[kw cat] v] rows IH]; [done|].
  cbn [search_loop List.filter]. rewrite IH.
  change (keyword (kw, cat, v)) with kw. by destruct (contains text_lower kw).
Qed.

Lemma search_contains keyword text :
  Regex.search keyword text = true → contains text keyword = true.
Proof.
  unfold Regex.search, contains. rewrite !existsb_exists.
  intros (i & Hi & Hmatch). exists i. split; [done|].
  unfold Regex.match_at in Hmatch. by repeat (apply andb_true_iff in Hmatch as [Hmatch ?]).
Qed.

Lemma list_filter_sublist_impl {A} (P Q : A → bool) l :
  (∀ x, P x = true → Q x = true) → List.filter P l `sublist_of` List.filter Q l.
Proof.
  intros HPQ. induction l as [|x l IH]; [done|]. cbn.
  destruct (P x) eqn:HP.
  - rewrite (HPQ x HP). by apply sublist_skip.
  - destruct (Q x); [by apply sublist_cons|done].
Qed.

(** X12.  On the same read of the keyword store, every match reported by
    [find_matches] is also found by [search_keywords], in the same order:
    the substring search of the keyword manager is the looser of the
    two. *)
Theorem find_matches_within_search w m text matches m' found :
  needs_refresh w m →
  find_matches w m text = Ok (matches, m') →
  search_keywords (db w) text = Ok found →
  matches `sublist_of` found.
Proof.
  intros Hrefresh Hfind Hsearch.
  apply find_matches_inv in Hfind as [(_ & -> & _)|(_ & kws & Hget & ->)].
  { apply sublist_nil_l. }
  rewrite _get_keywords_refresh in Hget by done.
  unfold search_keywords in Hsearch.
  destruct (get_keywords (db w) None) as [rows|e]; [|done].
  cbn [rbind] in *. injection Hget as <- _. injection Hsearch as <-.
  rewrite search_loop_filter. apply list_filter_sublist_impl.
  intros r. apply search_contains.
Qed.

End SearchingKeywords.

Lemma find_matches_within_search_witness :
  ∃ matches m' found,
    find_matches sample_world new_matcher "Routers and a table saw" = Ok (matches, m')
    ∧ search_keywords sample_db "Routers and a table saw" = Ok found
    ∧ matches `sublist_of` found.
Proof.
  eexists _, _, _. split; [vm_compute; reflexivity|]. split; [vm_compute; reflexivity|].
  eapply (find_matches_within_search sample_world new_matcher "Routers and a table saw").
  - exact I.
  - vm_compute. reflexivity.
  - vm_compute. reflexivity.
Defined.

(** The substring search finds a keyword inside a longer word, the
    whole-word search does not. *)
Example search_keywords_inside_words :
  search_keywords sample_db "Routers and a table saw"
  = Ok [("router", "tools", 10); ("table saw", "tools", 8)]%string
  ∧ ∃ m', find_matches sample_world new_matcher "Routers and a table saw"
          = Ok ([("table saw", "tools", 8)]%string, m').
Proof. split; [reflexivity|]. eexists. vm_compute. reflexivity. Qed.

Section CategoryRead.
Context `{Unicode : !Regex.Text}.

Lemma get_keywords_category d a c :
  get_keywords d (Some (String a c))
  = let* rows := get_keywords d None in
    Ok (List.filter (λ r, String.eqb (category r) (String a c)) rows).
Proof.
  unfold get_keywords, execute. destruct (fault d) as [[]|]; try done.
  cbn [except_sqlite rbind select_keywords]. f_equal.
  apply (StronglySorted_unique_strong keyword_order).
  - intros x y Hx Hy. apply keyword_order_antisym.
    rewrite stable_sort_perm in Hx.
    apply list_elem_of_In, List.filter_In in Hx as [_ Hx].
    apply list_elem_of_In, List.filter_In in Hy as [_ Hy].
    apply String.eqb_eq in Hx, Hy. congruence.
  - apply stable_sort_by_score_keyword.
  - apply (StronglySorted_weaken_on category_keyword_order).
    + intros x y Hx Hy [[Hne _]|[_ Hk]]; [|done].
      apply list_elem_of_In, List.filter_In in Hx as [_ Hx].
      apply list_elem_of_In, List.filter_In in Hy as [_ Hy].
      apply String.eqb_eq in Hx, Hy. congruence.
    + apply StronglySorted_list_filter, stable_sort_by_category_score_keyword.
  - rewrite stable_sort_perm. apply list_filter_Permutation. by rewrite stable_sort_perm.
Qed.

(** X13.  A read of one category returns the rows of that category of
    the full read, in the order of the full read; the empty string as
    category is read as no category and returns every keyword. *)
Theorem get_keywords_by_category d :
  get_keywords d (Some ""%string) = get_keywords d None
  ∧ ∀ c, c ≠ ""%string →
      get_keywords d (Some c)
      = let* rows := get_keywords d None in
        Ok (List.filter (λ r, String.eqb (category r) c) rows).
Proof.
  split; [done|]. intros [|a c] Hc; [done|]. apply get_keywords_category.
Qed.

End CategoryRead.

Example get_keywords_tools :
  get_keywords sample_db (Some "tools"%string)
  = Ok [("router", "tools", 10); ("table saw", "tools", 8)]%string
  ∧ get_keywords sample_db (Some ""%string)
    = Ok [("safety", "general", 5); ("lumber", "low_value", 3);
          ("router", "tools", 10); ("table saw", "tools", 8)]%string.
Proof. split; reflexivity. Qed.

(** ** The keyword cache of [KeywordMatcher] *)

Section KeywordCache.
Context `{Unicode : !Regex.Text}.

(** X14.  After [_get_keywords] has returned, the matcher holds the
    returned list with the time of its last read.  Until more than 300
    seconds have passed since that time, every call returns the cached
    list without reading the keyword store, whatever the store holds by
    then; after that a call reads the store again. *)
Theorem keyword_cache_window w m kws m1 :
  _get_keywords w m = Ok (kws, m1) →
  ∃ t,
    _keyword_cache m1 = Some kws ∧ _cache_timestamp m1 = Some t
    ∧ now w - t ≤ _cache_ttl * SECOND
    ∧ (∀ w', now w' - t ≤ _cache_ttl * SECOND → _get_keywords w' m1 = Ok (kws, m1))
    ∧ (∀ w', _cache_ttl * SECOND < now w' - t →
         _get_keywords w' m1
         = let* rows := get_keywords (db w') None in
           Ok (rows, {| _keyword_cache := Some rows; _cache_timestamp := Some (now w') |})).
Proof.
  assert (Hwindow : ∀ t,
    (∀ w', now w' - t ≤ _cache_ttl * SECOND →
       _get_keywords w' {| _keyword_cache := Some kws; _cache_timestamp := Some t |}
       = Ok (kws, {| _keyword_cache := Some kws; _cache_timestamp := Some t |}))
    ∧ (∀ w', _cache_ttl * SECOND < now w' - t →
         _get_keywords w' {| _keyword_cache := Some kws; _cache_timestamp := Some t |}
         = let* rows := get_keywords (db w') None in
           Ok (rows, {| _keyword_cache := Some rows; _cache_timestamp := Some (now w') |}))).
  { intros t. split; intros w' Hw'; unfold _get_keywords; cbn [_keyword_cache _cache_timestamp].
    - destruct (Z.ltb_spec (_cache_ttl * SECOND) (now w' - t)); [lia|done].
    - destruct (Z.ltb_spec (_cache_ttl * SECOND) (now w' - t)); [done|lia]. }
  assert (Hrefresh :
    (let* rows := get_keywords (db w) None in
     Ok (rows, {| _keyword_cache := Some rows; _cache_timestamp := Some (now w) |}))
    = Ok (kws, m1) →
    ∃ t, _keyword_cache m1 = Some kws ∧ _cache_timestamp m1 = Some t
         ∧ now w - t ≤ _cache_ttl * SECOND
         ∧ m1 = {| _keyword_cache := Some kws; _cache_timestamp := Some t |}).
  { destruct (get_keywords (db w) None) as [rows|e]; [|done]. cbn [rbind].
    intros [= <- <-]. exists (now w). repeat split. unfold _cache_ttl, SECOND. lia. }
  intros Hget.
  assert (∃ t, _keyword_cache m1 = Some kws ∧ _cache_timestamp m1 = Some t
               ∧ now w - t ≤ _cache_ttl * SECOND
               ∧ m1 = {| _keyword_cache := Some kws; _cache_timestamp := Some t |})
    as (t & Hc & Ht & Hage & Hm1).
  { unfold _get_keywords in Hget.
    destruct m as [[cached|] [t|]]; cbn [_keyword_cache _cache_timestamp] in Hget;
      try by apply Hrefresh.
    destruct (Z.ltb_spec (_cache_ttl * SECOND) (now w - t)); [by apply Hrefresh|].
    injection Hget as <- <-. by exists t. }
  exists t. split; [done|]. split; [done|]. split; [done|].
  rewrite Hm1. apply Hwindow.
Qed.

End KeywordCache.

Lemma keyword_cache_window_witness :
  ∃ kws m1,
    _get_keywords sample_world new_matcher = Ok (kws, m1)
    ∧ _get_keywords
        {| now := sample_now + 300 * SECOND;
           db := {| fault := Some OtherError; keywords := []; posts := ∅ |} |} m1
      = Ok (kws, m1).
Proof.
  eexists _, _. split; [vm_compute; reflexivity|].
  edestruct (keyword_cache_window sample_world new_matcher) as (t & _ & Ht & _ & Hcached & _).
  { vm_compute. reflexivity. }
  apply Hcached. injection Ht as <-. vm_compute. discriminate.
Defined.

(** ** Matching and letter case *)

Section LetterCase.
Context `{Unicode : !Regex.Text}.

(** X15.  [find_matches] ignores the letter case of the text: two texts
    with the same lower-case form give the same matches and leave the
    matcher in the same state; [str.lower] is taken to return the empty
    string for the empty string only. *)
Theorem find_matches_case_insensitive w m text1 text2 :
  (∀ s, Regex.lower s = ""%string ↔ s = ""%string) →
  Regex.lower text1 = Regex.lower text2 →
  find_matches w m text1 = find_matches w m text2.
Proof.
  intros Hempty Hlower. unfold find_matches.
  destruct (String.eqb_spec text1 "") as [->|H1], (String.eqb_spec text2 "") as [->|H2].
  - done.
  - exfalso. apply H2, Hempty. rewrite <- Hlower. by apply Hempty.
  - exfalso. apply H1, Hempty. rewrite Hlower. by apply Hempty.
  - by rewrite Hlower.
Qed.

End LetterCase.

Lemma find_matches_case_insensitive_witness :
  find_matches sample_world new_matcher "TABLE SAW and Router"
  = find_matches sample_world new_matcher "Table saw AND router".
Proof.
  apply find_matches_case_insensitive; [apply ascii_lower_empty|reflexivity].
Defined.

Section StoredKeywordFound.
Context `{Unicode : !Regex.Text}.

Lemma search_itself s :
  word_ended (Regex.chars s) → Regex.search s s = true.
Proof.
  intros Hended. set (kw := Regex.chars s).
  assert (Hoccurs : occurs_at kw kw 0).
  { unfold occurs_at. by rewrite drop_0, firstn_all. }
  destruct (word_ended_boundaries kw kw 0 Hended Hoccurs) as [Hfirst Hfinal].
  unfold Regex.search. apply existsb_exists. exists 0%nat. split.
  { apply in_seq. lia. }
  fold kw. unfold Regex.match_at, Regex.at_boundary, Regex.literal_at.
  rewrite Hfirst, Hfinal. cbn [Regex.word_before xorb negb andb].
  rewrite bool_decide_eq_true_2 by exact Hoccurs. cbn [andb plus].
  unfold Regex.word_at. by rewrite lookup_ge_None_2.
Qed.

(** X16.  A keyword that [add_keyword] has stored is found whatever its
    letter case was: once [add_keyword] has returned [True], a matcher
    that reads the store reports the stored row, with the lower-cased
    keyword, for the text that consists of the keyword as it was given,
    provided the lower-cased keyword starts and ends with a word
    character. *)
Theorem add_keyword_then_find_matches d kw cat v d' w m :
  add_keyword d kw cat v = Ok (true, d') →
  db w = d' →
  needs_refresh w m →
  kw ≠ ""%string →
  word_ended (Regex.chars (Regex.lower kw)) →
  ∃ matches m',
    find_matches w m kw = Ok (matches, m')
    ∧ (Regex.lower kw, cat, v) ∈ matches.
Proof.
  intros Hadd Hdb Hrefresh Hkw Hended.
  apply add_keyword_inv in Hadd as [(? & _)|(_ & Hfault & Hd')]; [done|].
  rewrite find_matches_nonempty by done.
  rewrite _get_keywords_refresh by done. rewrite Hdb, Hd'.
  unfold get_keywords, execute. cbn [fault with_keywords]. rewrite Hfault.
  cbn [except_sqlite rbind select_keywords keywords].
  eexists _, _. split; [reflexivity|].
  apply list_elem_of_In, List.filter_In. split.
  - apply list_elem_of_In. rewrite stable_sort_perm.
    apply elem_of_insert_or_replace. by left.
  - by apply search_itself.
Qed.

End StoredKeywordFound.

Lemma add_keyword_then_find_matches_witness :
  ∃ d' matches m',
    add_keyword sample_db "Band Saw" "tools" 7 = Ok (true, d')
    ∧ find_matches {| now := sample_now; db := d' |} new_matcher "Band Saw"
      = Ok (matches, m')
    ∧ ("band saw", "tools", 7)%string ∈ matches.
Proof.
  destruct (add_keyword sample_db "Band Saw" "tools" 7) as [[[|] d']|e] eqn:Hadd;
    try (vm_compute in Hadd; discriminate).
  destruct (add_keyword_then_find_matches sample_db "Band Saw" "tools" 7 d'
              {| now := sample_now; db := d' |} new_matcher Hadd eq_refl)
    as (matches & m' & Hfind & Hrow).
  - exact I.
  - discriminate.
  - eexists _, _. repeat split; reflexivity.
  - by exists d', matches, m'.
Defined.

(** The keywords themselves are compared as they are stored. *)
Example find_matches_capital_keyword :
  ∃ m', find_matches
          {| now := sample_now;
             db := {| fault := None; keywords := [("Router", "tools", 10)]%string;
                      posts := ∅ |} |}
          new_matcher "Router table" = Ok ([], m').
Proof. eexists. vm_compute. reflexivity. Qed.

(** ** Bounds of the keyword score *)

Section ScoreBounds.
Context `{Unicode : !Regex.Text}.

Lemma score_loop_bounds matches : ∀ counts total,
  Forall (λ r, 0 ≤ score_value r) matches →
  total ≤ score_loop counts total matches ≤ total + total_weight matches.
Proof.
  induction matches as [|[[kw cat] v] matches IH]; intros counts total Hpos.
  { cbn. lia. }
  apply Forall_cons in Hpos as [Hv Hpos]. change (score_value (kw, cat, v)) with v in Hv.
  cbn [score_loop total_weight foldr]. change (score_value (kw, cat, v)) with v.
  fold (total_weight matches).
  set (n := default 0 (counts !! kw) + 1).
  pose proof (Z.div_pos v 2 Hv ltac:(lia)) as Hhalf.
  pose proof (Z.div_le_upper_bound v 2 v ltac:(lia) ltac:(lia)) as Hhalf'.
  destruct (n =? 1); [|destruct (n =? 2)];
    match goal with |- _ ≤ score_loop ?c ?t _ ≤ _ => specialize (IH c t Hpos) end; lia.
Qed.

(** X17.  With weights that are not negative, the keyword score is not
    negative and never exceeds the sum of the weights of the matches. *)
Theorem calculate_keyword_score_bounds matches :
  Forall (λ r, 0 ≤ score_value r) matches →
  0 ≤ calculate_keyword_score matches ≤ total_weight matches.
Proof.
  intros Hpos. destruct matches as [|r matches]; [cbn; lia|].
  unfold calculate_keyword_score. apply (score_loop_bounds (r :: matches) ∅ 0 Hpos).
Qed.

End ScoreBounds.

Lemma calculate_keyword_score_bounds_witness :
  0 ≤ calculate_keyword_score
        [("router", "tools", 9); ("router", "tools", 9); ("router", "tools", 9)]%string
    ≤ 27.
Proof.
  apply (calculate_keyword_score_bounds
           [("router", "tools", 9); ("router", "tools", 9); ("router", "tools", 9)]%string).
  repeat constructor; cbn; lia.
Defined.

(** The half of a negative weight is rounded down, so with negative
    weights the score can lie below the sum of the weights of two
    matches of a keyword of weight -1. *)
Example calculate_keyword_score_negative_weight :
  calculate_keyword_score [("glue", "low", -1); ("glue", "low", -1)]%string = -2
  ∧ calculate_keyword_score [("glue", "low", -3); ("glue", "low", -3)]%string = -5.
Proof. split; reflexivity. Qed.

(** ** Scoring one post *)

Section PostWithoutText.
Context `{Unicode : !Regex.Text}.

Lemma list_set_nil (list_set : list KeywordRow → list KeywordRow) :
  (∀ l, list_set l ≡ₚ remove_dups l) → list_set [] = [].
Proof. intros H. apply Permutation_nil_r. by rewrite (H []). Qed.

(** X18.  A post with an empty title and an empty content is scored
    without reading the keywords, so also when the keyword store cannot
    be read: its keyword score is 0, no keyword is matched, the matcher
    is left as it was, and the final score is the time bonus plus the
    link penalty. *)
Theorem score_post_without_text list_set config w m p :
  (∀ l, list_set l ≡ₚ remove_dups l) →
  title p = ""%string →
  content p = ""%string →
  ∃ r, score_post list_set config w m p = Ok (r, m)
       ∧ keyword_score r = 0
       ∧ matched_keywords r = []
       ∧ final_score r
         = (if is_recent (now w) p then Config.recent_post_bonus config else 0)
           + (if has_external_links p then Config.external_link_penalty config else 0).
Proof.
  intros Hset Htitle Hcontent. unfold score_post.
  rewrite Htitle, find_matches_empty. cbn [rbind].
  rewrite Hcontent, find_matches_empty. cbn [rbind app].
  rewrite (list_set_nil list_set Hset). eexists. split; [reflexivity|]. cbn. done.
Qed.

End PostWithoutText.

Lemma score_post_without_text_witness :
  ∃ r, score_post remove_dups Config.default
         {| now := sample_now;
            db := {| fault := Some OtherError; keywords := []; posts := ∅ |} |}
         new_matcher (sample_post "p0" "" "" (sample_now - MINUTE) true)
       = Ok (r, new_matcher)
       ∧ final_score r = 1.
Proof.
  edestruct (score_post_without_text remove_dups Config.default
               {| now := sample_now;
                  db := {| fault := Some OtherError; keywords := []; posts := ∅ |} |}
               new_matcher (sample_post "p0" "" "" (sample_now - MINUTE) true))
    as (r & Hscore & _ & _ & Hfinal).
  - done.
  - reflexivity.
  - reflexivity.
  - exists r. split; [exact Hscore|]. rewrite Hfinal. reflexivity.
Defined.

Section Rescoring.
Context `{Unicode : !Regex.Text}.

Lemma find_matches_again w m text matches m1 :
  find_matches w m text = Ok (matches, m1) →
  find_matches w m1 text = Ok (matches, m1).
Proof.
  intros Hfind.
  apply find_matches_inv in Hfind as [(-> & -> & ->)|(Htext & kws & Hget & ->)].
  { apply find_matches_empty. }
  rewrite find_matches_nonempty by done.
  by rewrite (_get_keywords_again w m kws m1 Hget).
Qed.

Lemma find_matches_twice_again w m text1 text2 matches1 matches2 m1 m2 :
  find_matches w m text1 = Ok (matches1, m1) →
  find_matches w m1 text2 = Ok (matches2, m2) →
  find_matches w m2 text1 = Ok (matches1, m2)
  ∧ find_matches w m2 text2 = Ok (matches2, m2).
Proof.
  intros H1 H2. split; [|by eapply find_matches_again].
  apply find_matches_inv in H1 as [(-> & -> & ->)|(Htext1 & kws & Hget & ->)].
  { apply find_matches_empty. }
  pose proof (_get_keywords_again w m kws m1 Hget) as Hagain.
  apply find_matches_inv in H2 as [(-> & -> & ->)|(Htext2 & kws2 & Hget2 & ->)].
  - rewrite find_matches_nonempty by done. by rewrite Hagain.
  - rewrite Hagain in Hget2. injection Hget2 as <- <-.
    rewrite find_matches_nonempty by done. by rewrite Hagain.
Qed.

Lemma score_post_scoring_of list_set config w m p r m1 :
  score_post list_set config w m p = Ok (r, m1) → scoring_of p r.
Proof.
  unfold score_post, scoring_of.
  destruct (find_matches w m (title p)) as [[title_matches m0]|e]; [|done]. cbn [rbind].
  destruct (find_matches w m0 (content p)) as [[content_matches m2]|e]; [|done]. cbn [rbind].
  by intros [= <- <-].
Qed.

(** X19.  [score_post] overwrites the score and the matched keywords of
    the post and leaves its other fields alone; what it computes does not
    depend on the score and the keywords that the post carried before,
    and scoring the scored post again at the same time gives the same
    result. *)
Theorem score_post_rescoring list_set config w m p r m1 :
  score_post list_set config w m p = Ok (r, m1) →
  scoring_of p r
  ∧ (∀ s ks, score_post list_set config w m (rescored p s ks) = Ok (r, m1))
  ∧ score_post list_set config w m1 (post r) = Ok (r, m1).
Proof.
  intros Hscore. split; [by eapply score_post_scoring_of|].
  assert (Hany : ∀ m0 s ks,
    score_post list_set config w m0 (rescored p s ks) = score_post list_set config w m0 p).
  { intros m0 s ks. reflexivity. }
  split; [intros s ks; by rewrite Hany|].
  rewrite (score_post_scoring_of _ _ _ _ _ _ _ Hscore), Hany.
  unfold score_post in *.
  destruct (find_matches w m (title p)) as [[title_matches m0]|e] eqn:Htitle; [|done].
  cbn [rbind] in Hscore.
  destruct (find_matches w m0 (content p)) as [[content_matches m2]|e] eqn:Hcontent; [|done].
  cbn [rbind] in Hscore. injection Hscore as <- <-.
  destruct (find_matches_twice_again _ _ _ _ _ _ _ _ Htitle Hcontent) as [Htitle' Hcontent'].
  rewrite Htitle'. cbn [rbind]. rewrite Hcontent'. reflexivity.
Qed.

End Rescoring.

Lemma score_post_rescoring_witness :
  ∃ r m1,
    score_post remove_dups Config.default sample_world new_matcher
      (sample_post "p1" "Table saw safety tips" "..." (sample_now - 5 * MINUTE) false)
    = Ok (r, m1)
    ∧ score_post remove_dups Config.default sample_world m1 (post r) = Ok (r, m1).
Proof.
  destruct (score_post remove_dups Config.default sample_world new_matcher
              (sample_post "p1" "Table saw safety tips" "..." (sample_now - 5 * MINUTE) false))
    as [[r m1]|e] eqn:Hscore; [|vm_compute in Hscore; discriminate].
  exists r, m1. split; [reflexivity|].
  by destruct (score_post_rescoring _ _ _ _ _ _ _ Hscore) as (_ & _ & Hagain).
Defined.

(** ** Scoring a list of posts *)

Section ScoringLists.
Context `{Unicode : !Regex.Text}.

Lemma score_each_scoring list_set config d : ∀ posts clock m,
  ∃ kept,
    kept `sublist_of` posts
    ∧ Forall2 scoring_of kept (score_each list_set config d clock m posts).1
    ∧ (sqlite_faults_only d → kept = posts).
Proof.
  intros posts. induction posts as [|p rest IH]; intros clock m.
  { exists []. cbn. repeat split; constructor. }
  cbn [score_each].
  destruct (score_post list_set config {| now := clock 0%nat; db := d |} m p)
    as [[r m1]|e] eqn:Hscore.
  - destruct (IH (clock ∘ S) m1) as (kept & Hsub & Hall & Hfull).
    destruct (score_each list_set config d (clock ∘ S) m1 rest) as [results m2].
    cbn [fst] in *. exists (p :: kept). split; [by apply sublist_skip|]. split.
    + constructor; [by eapply score_post_scoring_of|done].
    + intros Hfaults. by rewrite Hfull.
  - destruct (IH (clock ∘ S) m) as (kept & Hsub & Hall & Hfull).
    exists kept. split; [by apply sublist_cons|]. split; [done|].
    intros Hfaults.
    destruct (score_post_returns list_set config {| now := clock 0%nat; db := d |} m p Hfaults)
      as (r & m1 & Hreturns).
    congruence.
Qed.

Lemma score_posts_perm list_set config d clock m posts :
  (score_posts list_set config d clock m posts).1
  ≡ₚ (score_each list_set config d clock m posts).1.
Proof.
  unfold score_posts.
  destruct (score_each list_set config d clock m posts) as [results m1].
  apply stable_sort_perm.
Qed.

(** X20.  When the only fault of the database is an SQLite error,
    [score_posts] skips no post: its result holds one scoring for every
    post of the list, and nothing else. *)
Theorem score_posts_every_post list_set config d clock m posts :
  sqlite_faults_only d →
  ∃ scored,
    Forall2 scoring_of posts scored
    ∧ (score_posts list_set config d clock m posts).1 ≡ₚ scored
    ∧ length (score_posts list_set config d clock m posts).1 = length posts.
Proof.
  intros Hfaults.
  destruct (score_each_scoring list_set config d posts clock m) as (kept & _ & Hall & Hfull).
  rewrite (Hfull Hfaults) in Hall.
  exists (score_each list_set config d clock m posts).1.
  split; [done|]. split; [apply score_posts_perm|].
  rewrite (score_posts_perm list_set config d clock m posts).
  symmetry. by eapply Forall2_length.
Qed.

End ScoringLists.

Lemma score_posts_every_post_witness :
  length (score_posts sample_list_set Config.default
            {| fault := Some SqliteError; keywords := sample_keywords; posts := ∅ |}
            (λ _, sample_now) new_matcher sample_posts).1
  = 6%nat.
Proof.
  destruct (score_posts_every_post sample_list_set Config.default
              {| fault := Some SqliteError; keywords := sample_keywords; posts := ∅ |}
              (λ _, sample_now) new_matcher sample_posts) as (scored & _ & _ & Hlength).
  - by right.
  - exact Hlength.
Defined.

(** With a fault that is not an SQLite error, the posts that have a
    title or a content are logged and skipped. *)
Example score_posts_skips :
  post_id ∘ post
  <$> (score_posts sample_list_set Config.default
         {| fault := Some OtherError; keywords := sample_keywords; posts := ∅ |}
         (λ _, sample_now) new_matcher
         [sample_post "p1" "Table saw" "" sample_now false;
          sample_post "p2" "" "" sample_now false]).1
  = ["p2"]%string.
Proof. reflexivity. Qed.

(** ** Filtering *)

Section ProcessedFilter.
Context `{Unicode : !Regex.Text}.

Lemma list_filter_sublist {A} (P : A → bool) l : List.filter P l `sublist_of` l.
Proof.
  induction l as [|x l IH]; [done|]. cbn.
  destruct (P x); [by apply sublist_skip|by apply sublist_cons].
Qed.

Lemma filter_processed_cases (d : DatabaseManager) (l : list Post) :
  (fault d = None →
   filter_processed d l
   = Ok (List.filter (λ p, bool_decide (post_key p ∉ Database.posts d)) l))
  ∧ (fault d = Some SqliteError → filter_processed d l = Ok l)
  ∧ (∀ e, fault d = Some e → e ≠ SqliteError → l ≠ [] → filter_processed d l = Raise e).
Proof.
  split; [|split].
  - intros Hfault. induction l as [|p l IH]; [done|].
    cbn [filter_processed List.filter].
    unfold is_post_processed, execute. rewrite Hfault. cbn [except_sqlite rbind].
    rewrite IH. cbn [rbind]. fold (post_key p).
    rewrite bool_decide_not. by destruct (bool_decide (post_key p ∈ Database.posts d)).
  - intros Hfault. induction l as [|p l IH]; [done|].
    cbn [filter_processed].
    unfold is_post_processed, execute. rewrite Hfault. cbn [except_sqlite rbind].
    rewrite IH. done.
  - intros e Hfault He Hl. destruct l as [|p l]; [done|].
    cbn [filter_processed].
    unfold is_post_processed, execute. rewrite Hfault. by destruct e.
Qed.

(** X21.  [filter_processed] on a database that answers keeps, in
    order, the posts whose platform and identifier are not in the posts
    table, so applying it again changes nothing.  When the database
    answers with an SQLite error, every post counts as not processed and
    the list comes back whole; any other exception leaves the function as
    soon as there is a post to check. *)
Theorem filter_processed_spec (d : DatabaseManager) (l : list Post) :
  (fault d = None →
   filter_processed d l
   = Ok (List.filter (λ p, bool_decide (post_key p ∉ Database.posts d)) l)
   ∧ (∀ l', filter_processed d l = Ok l' → filter_processed d l' = Ok l'))
  ∧ (fault d = Some SqliteError → filter_processed d l = Ok l)
  ∧ (∀ e, fault d = Some e → e ≠ SqliteError → l ≠ [] → filter_processed d l = Raise e).
Proof.
  destruct (filter_processed_cases d l) as (Hnone & Hsqlite & Hother).
  split; [|by split]. intros Hfault. split; [by apply Hnone|].
  intros l' Hl'. rewrite Hnone in Hl' by done. injection Hl' as <-.
  destruct (filter_processed_cases d
              (List.filter (λ p, bool_decide (post_key p ∉ Database.posts d)) l))
    as (-> & _); [|done].
  f_equal. apply list_filter_id. intros p Hp.
  by apply list_elem_of_In, List.filter_In in Hp as [_ Hp].
Qed.

End ProcessedFilter.

Example filter_processed_sample :
  post_id
  <$> default []
        (match filter_processed
                 {| fault := None; keywords := [];
                    posts := {[("reddit", "p2"); ("reddit", "p4")]}%string |}
                 sample_posts with
         | Ok l => Some l
         | Raise _ => None
         end)
  = ["p1"; "p3"; "p5"]%string.
Proof. vm_compute. reflexivity. Qed.

Section PipelineResults.
Context `{Unicode : !Regex.Text}.

Lemma filter_processed_sublist d l l' :
  filter_processed d l = Ok l' → l' `sublist_of` l.
Proof.
  destruct (filter_processed_cases d l) as (Hnone & Hsqlite & Hother).
  destruct (fault d) as [e|] eqn:Hfault.
  - destruct (decide (e = SqliteError)) as [->|He].
    + rewrite Hsqlite by done. by intros [= <-].
    + destruct l as [|p l]; [by intros [= <-]|]. by rewrite (Hother e).
  - rewrite Hnone by done. intros [= <-]. apply list_filter_sublist.
Qed.

Lemma filter_stage_inv w posts filtered :
  filter_stage w posts = Ok filtered →
  filtered `sublist_of` filter_duplicates posts
  ∧ (∀ p, p ∈ filtered → now w - 24 * HOUR ≤ timestamp p)
  ∧ (fault (db w) = None → ∀ p, p ∈ filtered → post_key p ∉ Database.posts (db w)).
Proof.
  unfold filter_stage.
  destruct (filter_processed (db w) (filter_duplicates posts)) as [unprocessed|e] eqn:Hproc;
    [|done].
  cbn [rbind]. intros Hage. apply filter_by_age_inv in Hage as ->.
  split; [|split].
  - etrans; [apply list_filter_sublist|]. by eapply filter_processed_sublist.
  - intros p Hp. apply list_elem_of_In, List.filter_In in Hp as [_ Hp]. lia.
  - intros Hfault p Hp. apply list_elem_of_In, List.filter_In in Hp as [Hp _].
    destruct (filter_processed_cases (db w) (filter_duplicates posts)) as (Hnone & _).
    rewrite Hnone in Hproc by done. injection Hproc as <-.
    apply List.filter_In in Hp as [_ Hp]. by apply bool_decide_eq_true in Hp.
Qed.

(** ** The pipeline *)

Lemma scoring_of_post_key p r : scoring_of p r → post_key (post r) = post_key p.
Proof. unfold scoring_of. by intros ->. Qed.

Lemma Forall2_scoring_of_keys kept scored :
  Forall2 scoring_of kept scored → post_key ∘ post <$> scored = post_key <$> kept.
Proof.
  induction 1 as [|p r kept scored Hpr _ IH]; [done|].
  cbn. by rewrite IH, (scoring_of_post_key p r Hpr).
Qed.

Lemma process_posts_inv list_set config w clock m posts out m' d' :
  process_posts list_set config w clock m posts = Ok (out, m', d') →
  ∃ filtered,
    filter_stage w posts = Ok filtered
    ∧ NoDup (post_key ∘ post <$> out)
    ∧ (∀ r, r ∈ out → ∃ p, p ∈ filtered ∧ scoring_of p r)
    ∧ (out = [] ∨ d' = _save_posts_to_db (db w) out).
Proof.
  rewrite process_posts_unfold.
  destruct (filter_stage w posts) as [filtered|e] eqn:Hstage; [|done].
  intros Hrun. exists filtered. split; [done|]. revert Hrun.
  destruct filtered as [|p0 rest].
  { intros [= <- <- <-]. split; [constructor|]. split; [|by left].
    intros r Hr. by apply elem_of_nil in Hr. }
  pose proof (score_posts_perm list_set config (db w) clock m (p0 :: rest)) as Hperm.
  destruct (score_each_scoring list_set config (db w) (p0 :: rest) clock m)
    as (kept & Hkept & Hall & _).
  destruct (score_posts list_set config (db w) clock m (p0 :: rest)) as [sorted m1].
  cbn [fst] in Hperm. intros [= <- <- <-].
  assert (Hsub : filter_top_posts config (filter_by_score sorted 1) `sublist_of` sorted).
  { destruct (filter_top_posts_take config (filter_by_score sorted 1)) as [n ->].
    etrans; [apply sublist_take|]. apply list_filter_sublist. }
  split; [|split; [|by right]].
  - eapply sublist_NoDup; [|by apply fmap_sublist].
    rewrite Hperm, (Forall2_scoring_of_keys _ _ Hall).
    eapply sublist_NoDup; [|by apply fmap_sublist].
    apply filter_stage_inv in Hstage as (Hdedup & _).
    eapply sublist_NoDup; [|by apply fmap_sublist].
    apply dedup_loop_NoDup.
  - intros r Hr.
    assert (Hscored : r ∈ (score_each list_set config (db w) clock m (p0 :: rest)).1).
    { rewrite <- Hperm. by eapply elem_of_sublist. }
    apply list_elem_of_lookup in Hscored as [i Hi].
    destruct (Forall2_lookup_r _ _ _ _ _ Hall Hi) as (p & Hp & Hpr).
    exists p. split; [|done].
    eapply elem_of_sublist; [|exact Hkept]. by eapply list_elem_of_lookup_2.
Qed.

(** X22.  The results of [process_posts] are scorings of posts of the
    input, at most one for each platform and identifier; each of these
    posts is at most 24 hours old and, when the database answers, was
    not in the posts table before the run. *)
Theorem process_posts_results_from_input list_set config w clock m posts out m' d' :
  process_posts list_set config w clock m posts = Ok (out, m', d') →
  NoDup (post_key ∘ post <$> out)
  ∧ ∀ r, r ∈ out →
      ∃ p, p ∈ posts
           ∧ scoring_of p r
           ∧ now w - 24 * HOUR ≤ timestamp p
           ∧ (fault (db w) = None → post_key p ∉ Database.posts (db w)).
Proof.
  intros Hrun.
  apply process_posts_inv in Hrun as (filtered & Hstage & Hnodup & Hfrom & _).
  split; [done|]. intros r Hr.
  destruct (Hfrom r Hr) as (p & Hp & Hpr).
  apply filter_stage_inv in Hstage as (Hsub & Hage & Hnew).
  exists p. split; [|split; [done|split; [by apply Hage|]]].
  - eapply elem_of_sublist; [|apply dedup_loop_sublist].
    eapply elem_of_sublist; [exact Hp|exact Hsub].
  - intros Hfault. by apply Hnew.
Qed.

End PipelineResults.

Lemma process_posts_results_from_input_witness :
  ∃ out m' d',
    process_posts sample_list_set Config.default sample_world (λ _, sample_now) new_matcher
      sample_posts = Ok (out, m', d')
    ∧ NoDup (post_key ∘ post <$> out).
Proof.
  destruct (process_posts sample_list_set Config.default sample_world (λ _, sample_now)
              new_matcher sample_posts) as [[[out m'] d']|e] eqn:Hrun;
    [|vm_compute in Hrun; discriminate].
  exists out, m', d'. split; [reflexivity|].
  by destruct (process_posts_results_from_input _ _ _ _ _ _ _ _ _ Hrun) as [Hnodup _].
Defined.

Section NeverTwice.
Context `{Unicode : !Regex.Text}.

(** X23.  No post is reported twice: after a run on a database that
    answers and that accepts the scores as 64-bit integers, a later run
    on the database that the first run left reports no post with the
    platform and identifier of a result of the first run, whatever the
    later input, clock and cache. *)
Theorem process_posts_never_twice list_set config w clock m posts out m' d'
    w2 clock2 m2 posts2 out2 m2' d2' :
  process_posts list_set config w clock m posts = Ok (out, m', d') →
  fault (db w) = None →
  Forall (λ r, fits_sqlite_integer (final_score r) = true) out →
  db w2 = d' →
  process_posts list_set config w2 clock2 m2 posts2 = Ok (out2, m2', d2') →
  ∀ r r2, r ∈ out → r2 ∈ out2 → post_key (post r) ≠ post_key (post r2).
Proof.
  intros Hrun Hfault Hfits Hdb Hrun2 r r2 Hr Hr2 Hkey.
  apply process_posts_inv in Hrun as (_ & _ & _ & _ & [->|Hsaved]).
  { by apply elem_of_nil in Hr. }
  apply process_posts_inv in Hrun2 as (filtered2 & Hstage2 & _ & Hfrom2 & _).
  destruct (Hfrom2 r2 Hr2) as (p2 & Hp2 & Hpr2).
  apply filter_stage_inv in Hstage2 as (_ & _ & Hnew).
  rewrite Hdb, Hsaved in Hnew. unfold _save_posts_to_db in Hnew. rewrite Hfault in Hnew.
  cbn [fault Database.posts] in Hnew.
  apply (Hnew eq_refl p2 Hp2).
  rewrite <- (scoring_of_post_key p2 r2 Hpr2), <- Hkey.
  apply elem_of_union_l, elem_of_list_to_set, list_elem_of_fmap. exists r.
  split; [done|]. apply list_elem_of_In, List.filter_In.
  split; [by apply list_elem_of_In|]. rewrite Forall_forall in Hfits. by apply Hfits.
Qed.

End NeverTwice.

Lemma process_posts_never_twice_witness :
  ∃ out m' d' out2 m2' d2',
    process_posts sample_list_set Config.default sample_world (λ _, sample_now) new_matcher
      [sample_post "p1" "Table saw safety tips" "..." (sample_now - 5 * MINUTE) false]
    = Ok (out, m', d')
    ∧ process_posts sample_list_set Config.default
        {| now := sample_now + HOUR; db := d' |} (λ _, sample_now + HOUR) m'
        [sample_post "p1" "Table saw safety tips" "..." (sample_now - 5 * MINUTE) false;
         sample_post "p4" "Lumber prices" "" (sample_now - 2 * HOUR) false]
      = Ok (out2, m2', d2')
    ∧ (post_id ∘ post <$> out2) = ["p4"]%string
    ∧ ∀ r r2, r ∈ out → r2 ∈ out2 → post_key (post r) ≠ post_key (post r2).
Proof.
  destruct (process_posts sample_list_set Config.default sample_world (λ _, sample_now)
              new_matcher
              [sample_post "p1" "Table saw safety tips" "..." (sample_now - 5 * MINUTE) false])
    as [[[out m'] d']|e] eqn:Hrun; [|vm_compute in Hrun; discriminate].
  destruct (process_posts sample_list_set Config.default
              {| now := sample_now + HOUR; db := d' |} (λ _, sample_now + HOUR) m'
              [sample_post "p1" "Table saw safety tips" "..." (sample_now - 5 * MINUTE) false;
               sample_post "p4" "Lumber prices" "" (sample_now - 2 * HOUR) false])
    as [[[out2 m2'] d2']|e] eqn:Hrun2.
  - exists out, m', d', out2, m2', d2'. split; [reflexivity|]. split; [exact Hrun2|].
    split.
    + clear -Hrun Hrun2. vm_compute in Hrun. injection Hrun as _ <- <-.
      vm_compute in Hrun2. by injection Hrun2 as <- _ _.
    + apply (process_posts_never_twice sample_list_set Config.default sample_world
               (λ _, sample_now) new_matcher
               [sample_post "p1" "Table saw safety tips" "..." (sample_now - 5 * MINUTE) false]
               out m' d'
               {| now := sample_now + HOUR; db := d' |} (λ _, sample_now + HOUR) m'
               [sample_post "p1" "Table saw safety tips" "..." (sample_now - 5 * MINUTE) false;
                sample_post "p4" "Lumber prices" "" (sample_now - 2 * HOUR) false]
               out2 m2' d2' Hrun eq_refl);
        [|reflexivity|exact Hrun2].
      clear -Hrun. vm_compute in Hrun. injection Hrun as <- _ _. repeat constructor.
  - exfalso. vm_compute in Hrun. injection Hrun as _ <- <-.
    vm_compute in Hrun2. discriminate.
Defined.

(** ** Ages *)

Section RecentPostsKept.
Context `{Unicode : !Regex.Text}.

(** X24.  [filter_by_age] keeps exactly the posts that are at most
    [max_age_hours] hours old, the limit included; with a limit of one
    hour or more it keeps every recent post, so that no post that earns
    the time bonus is dropped for its age. *)
Theorem filter_by_age_keeps_recent w posts max_age_hours kept p :
  filter_by_age w posts max_age_hours = Ok kept →
  p ∈ posts →
  (p ∈ kept ↔ now w - timestamp p ≤ max_age_hours * HOUR)
  ∧ (1 ≤ max_age_hours → is_recent (now w) p = true → p ∈ kept).
Proof.
  intros Hage Hp. apply filter_by_age_inv in Hage as ->.
  assert (Hkept : p ∈ List.filter (λ p, now w - max_age_hours * HOUR <=? timestamp p) posts
                  ↔ now w - timestamp p ≤ max_age_hours * HOUR).
  { rewrite list_elem_of_In, List.filter_In, <- list_elem_of_In, Z.leb_le.
    split; [intros [_ ?]; lia|]. intros ?. split; [done|lia]. }
  split; [done|]. intros Hhours Hrecent. apply Hkept.
  apply is_recent_iff in Hrecent. unfold HOUR, MINUTE, SECOND in *. lia.
Qed.

End RecentPostsKept.

Lemma filter_by_age_keeps_recent_witness :
  ∃ kept,
    filter_by_age sample_world sample_posts 24 = Ok kept
    ∧ sample_post "p1" "Table saw safety tips" "..." (sample_now - 5 * MINUTE) false ∈ kept.
Proof.
  destruct (filter_by_age sample_world sample_posts 24) as [kept|e] eqn:Hage;
    [|vm_compute in Hage; discriminate].
  exists kept. split; [reflexivity|].
  destruct (filter_by_age_keeps_recent sample_world sample_posts 24 kept
              (sample_post "p1" "Table saw safety tips" "..." (sample_now - 5 * MINUTE) false)
              Hage) as (_ & Hrecent).
  - unfold sample_posts. apply list_elem_of_here.
  - apply Hrecent; [lia|]. vm_compute. reflexivity.
Defined.

(** A post of exactly 24 hours is kept; one microsecond more and it is
    dropped, at the same age in minutes. *)
Example filter_by_age_boundary :
  filter_by_age sample_world
    [sample_post "a" "" "" (sample_now - 24 * HOUR) false;
     sample_post "b" "" "" (sample_now - 24 * HOUR - 1) false] 24
  = Ok [sample_post "a" "" "" (sample_now - 24 * HOUR) false]
  ∧ age_minutes sample_now (sample_post "a" "" "" (sample_now - 24 * HOUR) false) = 1440
  ∧ age_minutes sample_now (sample_post "b" "" "" (sample_now - 24 * HOUR - 1) false) = 1440.
Proof. repeat split; vm_compute; reflexivity. Qed.

(** ** Importing twice *)

Section ImportingTwice.
Context `{Unicode : !Regex.Text}.

Lemma foldl_insert_or_replace_NoDup news : ∀ rows,
  NoDup (keyword <$> rows) →
  NoDup (keyword <$> foldl (λ acc row, insert_or_replace row acc) rows news).
Proof.
  induction news as [|row news IH]; intros rows Hrows; [done|].
  cbn [foldl]. by apply IH, insert_or_replace_NoDup.
Qed.

Lemma last_with_its_keyword_listed r news :
  last_with_its_keyword r news → keyword r ∈ keyword <$> news.
Proof.
  intros (before & after & -> & _). apply list_elem_of_fmap. exists r. split; [done|].
  apply elem_of_app. right. by left.
Qed.

(** X25.  Importing the same dictionary a second time changes nothing
    that can be read: the second import returns the same count, the table
    holds the same rows, and [get_keywords] returns what it returned
    after the first import. *)
Theorem bulk_import_keywords_twice d keywords_dict n1 d1 n2 d2 cat :
  NoDup (keyword <$> keywords d) →
  bulk_import_keywords d keywords_dict = Ok (n1, d1) →
  bulk_import_keywords d1 keywords_dict = Ok (n2, d2) →
  n2 = n1
  ∧ keywords d2 ≡ₚ keywords d1
  ∧ get_keywords d2 cat = get_keywords d1 cat.
Proof.
  intros Hnodup H1 H2.
  apply bulk_import_keywords_inv in H1 as [(-> & -> & Hfault)|(Hfault & -> & ->)].
  { apply bulk_import_keywords_inv in H2 as [(-> & -> & _)|(Hfault2 & _)]; [done|congruence]. }
  apply bulk_import_keywords_inv in H2 as [(_ & _ & Hfault2)|(_ & -> & ->)].
  { cbn in Hfault2. congruence. }
  split; [done|]. cbn [keywords with_keywords].
  set (news := import_rows keywords_dict).
  set (rows1 := foldl (λ acc row, insert_or_replace row acc) (keywords d) news).
  assert (Hperm : foldl (λ acc row, insert_or_replace row acc) rows1 news ≡ₚ rows1).
  { apply NoDup_Permutation.
    - eapply NoDup_fmap_1, foldl_insert_or_replace_NoDup, foldl_insert_or_replace_NoDup, Hnodup.
    - eapply NoDup_fmap_1, foldl_insert_or_replace_NoDup, Hnodup.
    - intros r. subst rows1. rewrite !elem_of_foldl_insert_or_replace. split.
      + intros [Hlast|[[Hlast|Hold] Hnew]]; [by left| |by right].
        by apply last_with_its_keyword_listed in Hlast.
      + intros [Hlast|[Hold Hnew]]; [by left|]. right. split; [by right|done]. }
  split; [done|].
  unfold get_keywords, execute. cbn [fault with_keywords]. rewrite Hfault.
  cbn [except_sqlite]. f_equal. by apply select_keywords_Permutation.
Qed.

End ImportingTwice.

Lemma bulk_import_keywords_twice_witness :
  ∃ d1 d2,
    initialize_default_keywords sample_db = Ok (33, d1)
    ∧ initialize_default_keywords d1 = Ok (33, d2)
    ∧ get_keywords d2 None = get_keywords d1 None.
Proof.
  destruct (initialize_default_keywords sample_db) as [[n1 d1]|e] eqn:H1;
    [|vm_compute in H1; discriminate].
  destruct (initialize_default_keywords d1) as [[n2 d2]|e] eqn:H2.
  - destruct (bulk_import_keywords_twice sample_db default_keywords n1 d1 n2 d2 None)
      as (Hn & _ & Hread); [|exact H1|exact H2|].
    + apply (bool_decide_unpack _). vm_compute. exact I.
    + assert (n1 = 33) as -> by (vm_compute in H1; congruence).
      exists d1, d2. rewrite H2, Hn. done.
  - exfalso. apply bulk_import_keywords_inv in H1 as [(_ & _ & Hfault)|(_ & _ & ->)];
      [discriminate|].
    vm_compute in H2. discriminate.
Defined.

(** ** The pipeline without its database *)

Section DatabaseDown.
Context `{Unicode : !Regex.Text}.

Lemma _get_keywords_database_down w m :
  fault (db w) = Some SqliteError →
  no_cached_keywords m →
  ∃ m', _get_keywords w m = Ok ([], m') ∧ no_cached_keywords m'.
Proof.
  intros Hfault Hm.
  assert (Hrefresh :
    ∃ m', (let* rows := get_keywords (db w) None in
           Ok (rows, {| _keyword_cache := Some rows; _cache_timestamp := Some (now w) |}))
          = Ok ([], m') ∧ no_cached_keywords m').
  { unfold get_keywords, execute. rewrite Hfault. cbn [except_sqlite rbind].
    eexists. split; [reflexivity|]. by right. }
  unfold _get_keywords.
  destruct m as [[cached|] [t|]]; cbn [_keyword_cache _cache_timestamp]; try done.
  destruct (_cache_ttl * SECOND <? now w - t); [done|].
  destruct Hm as [Hm|Hm]; cbn in Hm; [done|]. injection Hm as ->.
  eexists. split; [reflexivity|]. by right.
Qed.

Lemma find_matches_database_down w m text :
  fault (db w) = Some SqliteError →
  no_cached_keywords m →
  ∃ m', find_matches w m text = Ok ([], m') ∧ no_cached_keywords m'.
Proof.
  intros Hfault Hm. unfold find_matches.
  destruct (String.eqb text ""); [by exists m|].
  destruct (_get_keywords_database_down w m Hfault Hm) as (m' & -> & Hm').
  by exists m'.
Qed.

Lemma score_post_database_down list_set config w m p :
  (∀ l, list_set l ≡ₚ remove_dups l) →
  fault (db w) = Some SqliteError →
  no_cached_keywords m →
  ∃ r m', score_post list_set config w m p = Ok (r, m')
          ∧ no_keyword_scoring r ∧ no_cached_keywords m'.
Proof.
  intros Hset Hfault Hm. unfold score_post.
  destruct (find_matches_database_down w m (title p) Hfault Hm) as (m1 & -> & Hm1).
  cbn [rbind].
  destruct (find_matches_database_down w m1 (content p) Hfault Hm1) as (m2 & -> & Hm2).
  cbn [rbind app]. rewrite (list_set_nil list_set Hset).
  eexists _, m2. split; [reflexivity|]. split; [|done].
  unfold no_keyword_scoring. cbn. done.
Qed.

Lemma score_each_database_down list_set config d :
  (∀ l, list_set l ≡ₚ remove_dups l) →
  fault d = Some SqliteError →
  ∀ posts clock m,
    no_cached_keywords m →
    Forall no_keyword_scoring (score_each list_set config d clock m posts).1.
Proof.
  intros Hset Hfault posts. induction posts as [|p rest IH]; intros clock m Hm.
  { constructor. }
  cbn [score_each].
  destruct (score_post_database_down list_set config {| now := clock 0%nat; db := d |} m p
              Hset Hfault Hm) as (r & m1 & -> & Hr & Hm1).
  specialize (IH (clock ∘ S) m1 Hm1).
  destruct (score_each list_set config d (clock ∘ S) m1 rest) as [results m2].
  by constructor.
Qed.

(** X26.  When the database answers every query with an SQLite error
    and the matcher holds no keyword, [process_posts] still returns: no
    post counts as processed, every result is scored without any keyword,
    from the time bonus and the link penalty alone, and nothing is
    saved. *)
Theorem process_posts_database_down list_set config w clock m posts :
  (∀ l, list_set l ≡ₚ remove_dups l) →
  fault (db w) = Some SqliteError →
  DAY ≤ now w ≤ datetime_max →
  no_cached_keywords m →
  ∃ out m',
    process_posts list_set config w clock m posts = Ok (out, m', db w)
    ∧ filter_processed (db w) (filter_duplicates posts) = Ok (filter_duplicates posts)
    ∧ Forall no_keyword_scoring out.
Proof.
  intros Hset Hfault Hnow Hm.
  destruct (process_posts_returns list_set config w clock m posts) as (out & m' & d' & Hrun);
    [by right|done|].
  exists out, m'.
  destruct (filter_processed_cases (db w) (filter_duplicates posts)) as (_ & Hopen & _).
  rewrite Hrun. rewrite process_posts_unfold in Hrun.
  destruct (filter_stage w posts) as [filtered|e]; [|done].
  destruct filtered as [|p0 rest].
  { injection Hrun as <- <- <-. split; [done|]. split; [by apply Hopen|constructor]. }
  pose proof (score_posts_perm list_set config (db w) clock m (p0 :: rest)) as Hperm.
  pose proof (score_each_database_down list_set config (db w) Hset Hfault (p0 :: rest) clock m Hm)
    as Hall.
  destruct (score_posts list_set config (db w) clock m (p0 :: rest)) as [sorted m1].
  cbn [fst] in Hperm. injection Hrun as <- <- <-.
  unfold _save_posts_to_db. rewrite Hfault. split; [done|]. split; [by apply Hopen|].
  rewrite <- Hperm in Hall.
  destruct (filter_top_posts_take config (filter_by_score sorted 1)) as [n ->].
  apply Forall_take. unfold filter_by_score.
  rewrite Forall_forall in *. intros r Hr. apply Hall.
  by apply list_elem_of_In, List.filter_In in Hr as [Hr%list_elem_of_In _].
Qed.

End DatabaseDown.

Lemma process_posts_database_down_witness :
  ∃ out m',
    process_posts remove_dups Config.default
      {| now := sample_now;
         db := {| fault := Some SqliteError; keywords := sample_keywords; posts := ∅ |} |}
      (λ _, sample_now) new_matcher sample_posts
    = Ok (out, m', {| fault := Some SqliteError; keywords := sample_keywords; posts := ∅ |})
    ∧ Forall no_keyword_scoring out.
Proof.
  destruct (process_posts_database_down remove_dups Config.default
              {| now := sample_now;
                 db := {| fault := Some SqliteError; keywords := sample_keywords;
                          posts := ∅ |} |}
              (λ _, sample_now) new_matcher sample_posts)
    as (out & m' & Hrun & _ & Hall).
  - done.
  - reflexivity.
  - vm_compute. split; discriminate.
  - by left.
  - by exists out, m'.
Defined.
